(** * squeezeDetMX: the record container and the masked regression layer

    Two parts.  [NDArray] and [BigRegressionOutput] embed the tensor code of
    [squeezeDetMX/model.py].  [Kitti] embeds the record container of
    [squeezeDetMX/kitti.py] and [squeezeDetMX/utils.py]. *)

From Stdlib Require Import List Arith Lia Bool ZArith NArith.
From Stdlib Require String Ascii.
From Stdlib.Strings Require Byte.
Import ListNotations.

Set Implicit Arguments.

(** ** Arrays *)

Module NDArray.

(** An n-dimensional array is a scalar (rank 0) or the sequence of its items
    along axis 0.  The arrays of mxnet and numpy without an empty axis are
    the rectangular values of this type, see [has_shape]; an array with an
    empty axis keeps no shape behind that axis and is not represented. *)
#[warnings="-register-all"]
Inductive ndarray (A : Type) : Type :=
| Scalar (x : A)
| Arr (xs : list (ndarray A)).

Arguments Scalar {A} x.
Arguments Arr {A} xs.

Section Ops.
Context {A : Type}.

(** Iterating over an array yields its items along axis 0. *)
Definition items (t : ndarray A) : list (ndarray A) :=
  match t with
  | Scalar _ => []
  | Arr xs => xs
  end.

(** [t.shape]. *)
Fixpoint shape (t : ndarray A) : list nat :=
  match t with
  | Scalar _ => []
  | Arr xs => length xs :: match xs with
                           | [] => []
                           | x :: _ => shape x
                           end
  end.

Fixpoint has_shape (s : list nat) (t : ndarray A) : bool :=
  match s, t with
  | [], Scalar _ => true
  | d :: s', Arr xs => (length xs =? d) && forallb (has_shape s') xs
  | _, _ => false
  end.

Fixpoint map2 {X Y Z : Type} (f : X -> Y -> Z) (xs : list X) (ys : list Y) : list Z :=
  match xs, ys with
  | x :: xs', y :: ys' => f x y :: map2 f xs' ys'
  | _, _ => []
  end.

(** The array with [b] items along axis 0 and [c] along axis 1 whose item
    at [(i, j)] is [f i j]. *)
Definition table (b c : nat) (f : nat -> nat -> ndarray A) : ndarray A :=
  Arr (map (fun i => Arr (map (f i) (seq 0 c))) (seq 0 b)).

(** [t[i, j]]. *)
Definition item2 (t : ndarray A) (i j : nat) : ndarray A :=
  nth j (items (nth i (items t) t)) t.

(** [t[i, j, l]]. *)
Definition item3 (t : ndarray A) (i j l : nat) : ndarray A :=
  nth l (items (item2 t i j)) t.

(** The data movement of the axis operations, by recursion on the axis. *)

(** [begin:begin+size] along [axis]. *)
Fixpoint slice_axis (axis begin size : nat) (t : ndarray A) : ndarray A :=
  match axis with
  | 0 => Arr (firstn size (skipn begin (items t)))
  | S a => Arr (map (slice_axis a begin size) (items t))
  end.

(** A new axis of size one at position [axis]. *)
Fixpoint insert_axis (axis : nat) (t : ndarray A) : ndarray A :=
  match axis with
  | 0 => Arr [t]
  | S a => Arr (map (insert_axis a) (items t))
  end.

(** Removing [axis] when it has size one. *)
Fixpoint squeeze (axis : nat) (t : ndarray A) : ndarray A :=
  match axis with
  | 0 => match items t with
         | x :: _ => x
         | [] => t
         end
  | S a => Arr (map (squeeze a) (items t))
  end.

(** Joining the arrays [ts] along [dim]: below [dim] the items at one index
    are joined, at [dim] the items follow each other. *)
Fixpoint join (dim : nat) (ts : list (ndarray A)) : ndarray A :=
  match dim with
  | 0 => Arr (List.concat (map items ts))
  | S d =>
      Arr (map (fun i => join d (map (fun u => nth i (items u) u) ts))
               (seq 0 (match ts with
                       | [] => 0
                       | t :: _ => List.length (items t)
                       end)))
  end.

(** Shapes that agree everywhere but at position [dim]. *)
Fixpoint cat_compatible (dim : nat) (s1 s2 : list nat) : bool :=
  match dim, s1, s2 with
  | 0, _ :: r1, _ :: r2 => if list_eq_dec Nat.eq_dec r1 r2 then true else false
  | S d, d1 :: r1, d2 :: r2 => (d1 =? d2) && cat_compatible d r1 r2
  | _, _, _ => false
  end.

(** [nd.concat] of the arrays [ts] along [dim], and [np.concatenate(ts, axis)]: at least one array,
    all of one shape outside [dim]. *)
Definition concat (dim : nat) (ts : list (ndarray A)) : option (ndarray A) :=
  match ts with
  | [] => None
  | t :: _ =>
      if forallb (fun u => cat_compatible dim (shape t) (shape u)) ts
      then Some (join dim ts)
      else None
  end.

(** The equal division of [axis] into [k] sections that both [nd.split] and
    [np.split] compute; an error when [axis] is out of range, [k] is zero or
    [k] does not divide the size of the axis. *)
Definition sections (axis k : nat) (t : ndarray A) : option (list (ndarray A)) :=
  match nth_error (shape t) axis with
  | None => None
  | Some c =>
      if (0 <? k) && (c mod k =? 0)
      then Some (map (fun i => slice_axis axis (i * (c / k)) (c / k) t) (seq 0 k))
      else None
  end.

(** [np.split(t, k, axis)] always returns a list. *)
Definition np_split (k axis : nat) (t : ndarray A) : option (list (ndarray A)) :=
  sections axis k t.

(** What an mxnet operator call returns: the list of its outputs, but the
    bare array when there is only one output.  [merge_block] tests for this
    case ([if split.shape[2] == 1: shrunk_split = [shrunk_split]]). *)
Inductive outputs : Type :=
| Single (t : ndarray A)
| Many (ts : list (ndarray A)).

Definition nd_outputs (ts : list (ndarray A)) : outputs :=
  match ts with
  | [t] => Single t
  | _ => Many ts
  end.

(** [nd.split(t, num_outputs=k, axis=axis, squeeze_axis=sq)]; squeezing
    requires sections of size one. *)
Definition nd_split (k axis : nat) (sq : bool) (t : ndarray A) : option outputs :=
  match sections axis k t with
  | None => None
  | Some ts =>
      if sq
      then match nth_error (shape t) axis with
           | Some c => if c =? k
                       then Some (nd_outputs (map (squeeze axis) ts))
                       else None
           | None => None
           end
      else Some (nd_outputs ts)
  end.

(** [for x in r] and [list.extend(r)]: the outputs, or the items along
    axis 0 when [r] is a bare array; a 0-d array cannot be iterated. *)
Definition iter (r : outputs) : option (list (ndarray A)) :=
  match r with
  | Many ts => Some ts
  | Single (Arr xs) => Some xs
  | Single (Scalar _) => None
  end.

(** [expand_dims(t, axis)]: the new axis lies within the rank of [t] plus
    one. *)
Definition expand_dims (axis : nat) (t : ndarray A) : option (ndarray A) :=
  if axis <=? List.length (shape t) then Some (insert_axis axis t) else None.

(** Element-wise operations with broadcasting: equal ranks, and on every
    axis equal sizes or a size of one.  Shapes of different ranks, which
    numpy aligns from the right, are outside this definition. *)
Fixpoint broadcastable (s1 s2 : list nat) : bool :=
  match s1, s2 with
  | [], [] => true
  | d1 :: r1, d2 :: r2 =>
      ((d1 =? d2) || (d1 =? 1) || (d2 =? 1)) && broadcastable r1 r2
  | _, _ => false
  end.

Fixpoint zip_with (f : A -> A -> A) (rank : nat) (x y : ndarray A) : ndarray A :=
  match rank with
  | 0 => match x, y with
         | Scalar a, Scalar b => Scalar (f a b)
         | _, _ => x
         end
  | S r =>
      let xs := items x in
      let ys := items y in
      Arr (if List.length xs =? List.length ys then map2 (zip_with f r) xs ys
           else if List.length ys =? 1
                then map (fun x' => zip_with f r x' (hd y ys)) xs
                else map (fun y' => zip_with f r (hd x xs) y') ys)
  end.

Definition broadcast (f : A -> A -> A) (x y : ndarray A) : option (ndarray A) :=
  if broadcastable (shape x) (shape y)
  then Some (zip_with f (List.length (shape x)) x y)
  else None.

(** An operation with a scalar, [t * 2] or [t ** 2]: [f] at every element. *)
Fixpoint amap (f : A -> A) (t : ndarray A) : ndarray A :=
  match t with
  | Scalar x => Scalar (f x)
  | Arr xs => Arr (map (amap f) xs)
  end.

End Ops.
End NDArray.

(** ** The error-free part of Python as an option monad *)

Definition obind {X Y : Type} (m : option X) (k : X -> option Y) : option Y :=
  match m with
  | Some x => k x
  | None => None
  end.

Notation "x <- m ;; k" := (obind m (fun x => k))
  (at level 61, m at next level, right associativity).
Notation "' p <- m ;; k" := (obind m (fun x => let 'p := x in k))
  (at level 61, p pattern, m at next level, right associativity).

Fixpoint mapM {X Y : Type} (f : X -> option Y) (xs : list X) : option (list Y) :=
  match xs with
  | [] => Some []
  | x :: xs' => y <- f x ;; ys <- mapM f xs' ;; Some (y :: ys)
  end.

(** ** squeezeDetMX/model.py: BigRegressionOutput *)

Module BigRegressionOutput.
Import NDArray.

Section Layer.

(** The constants of [squeezeDetMX/constants.py]. *)
Variables ANCHORS_PER_GRID NUM_BBOX_ATTRS : nat.

(** The element type of the arrays and its arithmetic. *)
Variable R : Type.
Variables mul add : R -> R -> R.

Local Abbreviation array := (ndarray R).

(** [int(block.shape[1] / ANCHORS_PER_GRID)]. *)
Definition num_outputs (block : array) : option nat :=
  c <- nth_error (shape block) 1 ;;
  if ANCHORS_PER_GRID =? 0 then None else Some (c / ANCHORS_PER_GRID).

(** [expanded_splits[-1]]. *)
Definition last_item (xs : list array) : option array :=
  match xs with
  | [] => None
  | x :: xs' => Some (last xs' x)
  end.

Definition split_block (block : array) : option (array * array) :=
  k <- num_outputs block ;;
  splits <- nd_split k 1 false block ;;
  splits <- iter splits ;;
  expanded_splits <- mapM (expand_dims 2) splits ;;
  data_bbox <- concat 2 (firstn NUM_BBOX_ATTRS expanded_splits) ;;
  data_score <- last_item expanded_splits ;;
  Some (data_bbox, data_score).

Definition split_block_np (block : array) : option (array * array) :=
  k <- num_outputs block ;;
  splits <- np_split k 1 block ;;
  expanded_splits <- mapM (expand_dims 2) splits ;;
  data_bbox <- concat 2 (firstn NUM_BBOX_ATTRS expanded_splits) ;;
  data_score <- last_item expanded_splits ;;
  Some (data_bbox, data_score).

(** One turn of the loop of [merge_block]: the arrays that [split] adds to
    [shrunk_splits]. *)
Definition shrink (split : array) : option (list array) :=
  n <- nth_error (shape split) 2 ;;
  shrunk_split <- nd_split n 2 true split ;;
  if n =? 1
  then match shrunk_split with
       | Single t => Some [t]
       | Many _ => None
       end
  else iter shrunk_split.

Definition merge_block (splits : list array) : option array :=
  shrunk_splits <- mapM shrink splits ;;
  concat 1 (List.concat shrunk_splits).

(** The write requests of an operator. *)
Inductive req_type : Type := null | write | inplace | add_to.

Definition shape_eqb (s1 s2 : list nat) : bool :=
  if list_eq_dec Nat.eq_dec s1 s2 then true else false.

(** [CustomOp.assign(dst, req, src)]: the content of [dst] afterwards, for
    a source of the shape of [dst]; a source of another shape that mxnet
    could broadcast to [dst] is outside this definition. *)
Definition assign (dst : array) (req : req_type) (src : array) : option array :=
  match req with
  | null => Some dst
  | write | inplace =>
      if shape_eqb (shape dst) (shape src) then Some src else None
  | add_to =>
      sum <- broadcast add dst src ;;
      if shape_eqb (shape dst) (shape sum) then Some sum else None
  end.

(** [forward]: the content of [out_data[0]] afterwards, for the prediction
    [in_data[0]], the label [in_data[1]] and the request [req[0]]. *)
Definition forward (req0 : req_type) (in_data0 in_data1 out_data0 : array)
  : option array :=
  '(pred_bbox, pred_score) <- split_block in_data0 ;;
  '(_, mask) <- split_block in_data1 ;;
  masked <- broadcast mul pred_bbox mask ;;
  masked_pred <- merge_block [masked; pred_score] ;;
  assign out_data0 req0 masked_pred.

(** Subtraction, the scalars [2] and [0], the square [x ** 2], division, the
    reduction [t.sum()] of an array and the constant [EPSILON] of
    [squeezeDetMX/constants.py]. *)
Variable sub : R -> R -> R.
Variables two zero : R.
Variable square : R -> R.
Variable div : R -> R -> R.
Variable asum : array -> R.
Variable EPSILON : R.

(** [backward]: the content of [in_grad[0]] afterwards, for the output
    [out_data[0]], the label [in_data[1]] and the request [req[0]]. *)
Definition backward (req0 : req_type) (out_data0 in_data1 in_grad0 : array)
  : option array :=
  '(pred_bbox, pred_score) <- split_block out_data0 ;;
  '(label_bbox, _) <- split_block in_data1 ;;
  difference <- broadcast sub pred_bbox label_bbox ;;
  gradient <- merge_block [amap (fun x => mul x two) difference;
                           amap (fun x => mul x zero) pred_score] ;;
  assign in_grad0 req0 gradient.

(** [bigMetric]: for the value of the global [haha] before the call, its
    value after it and, unless the call raises, the loss returned and whether
    [pdb.set_trace()] was entered on the way. *)
Definition bigMetric (haha : nat) (label pred : array) : nat * option (R * bool) :=
  let haha' := haha + 1 in
  (haha',
   '(pred_bbox, _) <- split_block_np pred ;;
   '(label_bbox, mask) <- split_block_np label ;;
   difference <- broadcast sub pred_bbox label_bbox ;;
   let loss_bbox := div (asum (amap square difference)) (add (asum mask) EPSILON) in
   Some (loss_bbox, haha' mod 50 =? 0)).

(** The calls of [bigMetric] on the pairs [(label, pred)] of [calls], one
    after the other: the value of [haha] in the end and what each call
    returned. *)
Fixpoint metric_calls (haha : nat) (calls : list (array * array))
  : nat * list (option (R * bool)) :=
  match calls with
  | [] => (haha, [])
  | (label, pred) :: calls' =>
      let '(haha1, outcome) := bigMetric haha label pred in
      let '(haha2, outcomes) := metric_calls haha1 calls' in
      (haha2, outcome :: outcomes)
  end.

(** *** Rectangular blocks, item by item

    The values that the functions above take on a block given as a
    [table]. *)

Section Blocks.
Variables (b : nat) (rest : list nat) (P L : nat -> nat -> array).

(** Section [l] of the block [P], of [ANCHORS_PER_GRID] channels. *)
Definition section_of (l : nat) : array :=
  table b ANCHORS_PER_GRID (fun i j => P i (l * ANCHORS_PER_GRID + j)).

Definition expanded_section (l : nat) : array :=
  table b ANCHORS_PER_GRID (fun i j => Arr [P i (l * ANCHORS_PER_GRID + j)]).

(** The bounding-box part: the first [n] sections side by side on axis 2. *)
Definition bbox_of (n : nat) : array :=
  table b ANCHORS_PER_GRID
        (fun i j => Arr (map (fun l => P i (l * ANCHORS_PER_GRID + j)) (seq 0 n))).

(** The element-wise product of two items of shape [rest]. *)
Definition emul (x y : array) : array :=
  zip_with mul (List.length rest) x y.

(** Attribute [l] of anchor [j] of the prediction [P], times the mask of
    the label [L] for that anchor. *)
Definition masked_item (i j l : nat) : array :=
  emul (P i (l * ANCHORS_PER_GRID + j))
       (L i (NUM_BBOX_ATTRS * ANCHORS_PER_GRID + j)).

(** Channel [q] of the merged block. *)
Definition merged_item (i q : nat) : array :=
  if q / ANCHORS_PER_GRID <? NUM_BBOX_ATTRS
  then masked_item i (q mod ANCHORS_PER_GRID) (q / ANCHORS_PER_GRID)
  else P i (NUM_BBOX_ATTRS * ANCHORS_PER_GRID + q mod ANCHORS_PER_GRID).

End Blocks.

(** An array with [n] layers on axis 2, and its layer [l]. *)
Definition layered (b n : nat) (G : nat -> nat -> nat -> array) : array :=
  table b ANCHORS_PER_GRID (fun i j => Arr (map (G i j) (seq 0 n))).

Definition layer (b : nat) (G : nat -> nat -> nat -> array) (l : nat) : array :=
  table b ANCHORS_PER_GRID (fun i j => G i j l).

End Layer.

(** Blocks of integers whose item at [(i, j, l)] is [100 i + 10 j + l]. *)
Definition example_block (b c h : nat) : ndarray Z :=
  table b c (fun i j =>
    Arr (map (fun l => Scalar (Z.of_nat (100 * i + 10 * j + l))) (seq 0 h))).

(** The same block with [-1] in the channels from [lo] up to [hi]. *)
Definition example_block_but (b c h lo hi : nat) : ndarray Z :=
  table b c (fun i j =>
    Arr (map (fun l => Scalar (if (lo <=? j) && (j <? hi)
                               then (-1)%Z
                               else Z.of_nat (100 * i + 10 * j + l)))
             (seq 0 h))).

(** The sum of the elements of an array of integers. *)
Fixpoint total (t : ndarray Z) : Z :=
  match t with
  | Scalar x => x
  | Arr xs => fold_right (fun u acc => (total u + acc)%Z) 0%Z xs
  end.

End BigRegressionOutput.

(** ** squeezeDetMX/model.py: the shapes of SqueezeDet

    The symbols that [SqueezeDet] builds, read as functions on the shape
    [(n, c, h, w)] of their input, as mxnet infers it: [None] when the
    inference gives no shape. *)

Module SqueezeDet.

(** mxnet reads a 0 in a shape as a size that is not known, and the shape
    without axes as a shape that is not known; from such a shape no shape is
    inferred. *)
Definition known (s : list nat) : bool :=
  match s with
  | [] => false
  | _ :: _ => forallb (Nat.ltb 0) s
  end.

(** The size of an axis after a kernel of size [kernel] has moved over it in
    steps of [stride], with [pad] cells added on both sides; the kernel has
    to fit. *)
Definition out_size (x kernel stride pad : nat) : option nat :=
  if (kernel <=? x + 2 * pad) && (0 <? stride)
  then Some ((x + 2 * pad - kernel) / stride + 1)
  else None.

(** [sym.Convolution(data, num_filter, kernel, stride, pad)]. *)
Definition Convolution (num_filter : nat) (kernel stride pad : nat * nat)
    (data : list nat) : option (list nat) :=
  match data with
  | [n; _; h; w] =>
      if known data && (0 <? num_filter)
      then
        oh <- out_size h (fst kernel) (fst stride) (fst pad) ;;
        ow <- out_size w (snd kernel) (snd stride) (snd pad) ;;
        Some [n; num_filter; oh; ow]
      else None
  | _ => None
  end.

(** [sym.Pooling(data, pool_type='max', kernel, stride)], without padding. *)
Definition Pooling (kernel stride : nat * nat) (data : list nat) : option (list nat) :=
  match data with
  | [n; c; h; w] =>
      if known data
      then
        oh <- out_size h (fst kernel) (fst stride) 0 ;;
        ow <- out_size w (snd kernel) (snd stride) 0 ;;
        Some [n; c; oh; ow]
      else None
  | _ => None
  end.

(** [sym.Activation] and [sym.Dropout] keep the shape. *)
Definition Activation (data : list nat) : option (list nat) :=
  if known data then Some data else None.
Definition Dropout (data : list nat) : option (list nat) :=
  if known data then Some data else None.

(** [sym.Concat(x, y, dim=1)]: the channels add up, the other axes agree. *)
Definition Concat (x y : list nat) : option (list nat) :=
  match x, y with
  | [n1; c1; h1; w1], [n2; c2; h2; w2] =>
      if known x && known y && (n1 =? n2) && (h1 =? h2) && (w1 =? w2)
      then Some [n1; c1 + c2; h1; w1]
      else None
  | _, _ => None
  end.

Definition _fire_layer (inputs : list nat) (s1x1 e1x1 e3x3 : nat) : option (list nat) :=
  sq1x1 <- Convolution s1x1 (1, 1) (1, 1) (0, 0) inputs ;;
  relu1 <- Activation sq1x1 ;;
  ex1x1 <- Convolution e1x1 (1, 1) (1, 1) (0, 0) relu1 ;;
  relu2 <- Activation ex1x1 ;;
  ex3x3 <- Convolution e3x3 (3, 3) (1, 1) (1, 1) relu1 ;;
  relu3 <- Activation ex3x3 ;;
  Concat relu2 relu3.

Section Net.

(** The constant of [squeezeDetMX/constants.py]. *)
Variable NUM_OUT_CHANNELS : nat.

Definition add_forward (data : list nat) : option (list nat) :=
  conv1 <- Convolution 64 (3, 3) (2, 2) (0, 0) data ;;
  relu1 <- Activation conv1 ;;
  pool1 <- Pooling (3, 3) (2, 2) relu1 ;;
  fire2 <- _fire_layer pool1 16 64 64 ;;
  fire3 <- _fire_layer fire2 16 64 64 ;;
  pool3 <- Pooling (3, 3) (2, 2) fire3 ;;
  fire4 <- _fire_layer pool3 32 128 128 ;;
  fire5 <- _fire_layer fire4 32 128 128 ;;
  pool5 <- Pooling (3, 3) (2, 2) fire5 ;;
  fire6 <- _fire_layer pool5 48 192 192 ;;
  fire7 <- _fire_layer fire6 48 192 192 ;;
  fire8 <- _fire_layer fire7 64 256 256 ;;
  fire9 <- _fire_layer fire8 64 256 256 ;;
  fire10 <- _fire_layer fire9 96 384 384 ;;
  fire11 <- _fire_layer fire10 96 384 384 ;;
  dropout11 <- Dropout fire11 ;;
  Convolution NUM_OUT_CHANNELS (3, 3) (1, 1) (1, 1) dropout11.

(** [BigRegressionOutputProp.infer_shape]: the shapes of the arguments, of
    the outputs and of the auxiliary states. *)
Definition infer_shape (in_shape : list (list nat))
  : option (list (list nat) * list (list nat) * list (list nat)) :=
  pred_shape <- nth_error in_shape 0 ;;
  label_shape <- nth_error in_shape 1 ;;
  Some ([pred_shape; label_shape], [pred_shape], []).

(** [add_loss]: the custom layer has one output, of the shape that
    [infer_shape] gives for it from the shapes of the prediction and of the
    label, when these are known. *)
Definition add_loss (pred label : list nat) : option (list nat) :=
  if known pred && known label
  then '(_, out_shape, _) <- infer_shape [pred; label] ;;
       nth_error out_shape 0
  else None.

(** [SqueezeDet.__init__]: the shape of [self.error] for the shapes of the
    variables [image] and [label]. *)
Definition error (image label : list nat) : option (list nat) :=
  net <- add_forward image ;;
  add_loss net label.

End Net.

End SqueezeDet.

(** ** squeezeDetMX/kitti.py and squeezeDetMX/utils.py: the record container *)

Declare Scope result_scope.
Delimit Scope result_scope with result.

Module Kitti.

(** Modelled from the spec: squeezeDetMX/kitti.py is not part of the sources;
    the error kinds are those of section 7.  A [ParseError] carries the
    number (from 0, within its text block) and the text of the offending
    line. *)
Inductive error : Type :=
| ParseError (line_no : nat) (line : String.string)
| DecodeError
| FramingError
| SequenceError
| EndOfStream.

(** Modelled from the spec: squeezeDetMX/kitti.py is missing; an operation
    that raises is a function into [result]. *)
Inductive result (A : Type) : Type :=
| Ok (a : A)
| Err (e : error).

Arguments Ok {A} a.
Arguments Err {A} e.

Definition rbind {A B : Type} (m : result A) (k : A -> result B) : result B :=
  match m with
  | Ok a => k a
  | Err e => Err e
  end.

Notation "x <- m ;; k" := (rbind m (fun x => k))
  (at level 61, m at next level, right associativity) : result_scope.
Notation "' p <- m ;; k" := (rbind m (fun x => let 'p := x in k))
  (at level 61, p pattern, m at next level, right associativity) : result_scope.

Local Open Scope result_scope.

Fixpoint mapR {X Y : Type} (f : X -> result Y) (xs : list X) : result (list Y) :=
  match xs with
  | [] => Ok []
  | x :: xs' => y <- f x ;; ys <- mapR f xs' ;; Ok (y :: ys)
  end.

Definition bytes : Type := list Byte.byte.

Definition byte_of_N (n : N) : Byte.byte :=
  match Byte.of_N (n mod 256) with
  | Some b => b
  | None => Byte.x00
  end.

(** Modelled from the spec: squeezeDetMX/kitti.py is missing; section 4.3
    asks for a fixed-width binary encoding of every integer, taken here as
    [w] bytes, least significant first. *)
Fixpoint le_encode (w : nat) (n : N) : bytes :=
  match w with
  | 0 => []
  | S w' => byte_of_N n :: le_encode w' (n / 256)
  end.

Fixpoint le_decode (bs : bytes) : N :=
  match bs with
  | [] => 0
  | b :: bs' => Byte.to_N b + 256 * le_decode bs'
  end.

Definition fits (w : nat) (n : N) : bool := (n <? 256 ^ N.of_nat w)%N.

(** Modelled from the spec: squeezeDetMX/kitti.py is missing; a value that
    does not fit its fixed width cannot be framed. *)
Definition pack (w : nat) (n : N) : result bytes :=
  if fits w n then Ok (le_encode w n) else Err FramingError.

(** Modelled from the spec: squeezeDetMX/kitti.py is missing; slicing
    [n] bytes off the stream fails with [FramingError] when fewer remain. *)
Definition take (n : N) (bs : bytes) : result (bytes * bytes) :=
  if (n <=? N.of_nat (length bs))%N
  then Ok (firstn (N.to_nat n) bs, skipn (N.to_nat n) bs)
  else Err FramingError.

Definition read_int (w : nat) (bs : bytes) : result (N * bytes) :=
  '(p, rest) <- take (N.of_nat w) bs ;; Ok (le_decode p, rest).

(** A bounding box is a row of numeric fields, each held as the value of its
    fixed-width bit pattern; a label table is the list of its rows. *)
Definition BoundingBox : Type := list N.
Definition LabelTable : Type := list BoundingBox.

(** tests/test_kitti.py, [assert_images_equal]: a raw image is an array of
    unsigned 8-bit samples, held as its shape and its samples in row-major
    order.  [image1 - image2] wraps around modulo 256, [np.sum] adds the
    differences up without wrapping, and the quotient by the number of
    samples is below 110 exactly when the sum is below 110 times that number.
    This is the comparison of two images of one shape, each with as many
    samples as its shape says: for other shapes numpy broadcasts or raises,
    and the definition does not say what happens. *)
Record RawImage : Type := { dims : list nat; samples : list N }.

Definition uint8_sub (a b : N) : N := ((a + 256 - b mod 256) mod 256)%N.

Fixpoint difference (xs ys : list N) : list N :=
  match xs, ys with
  | x :: xs', y :: ys' => uint8_sub x y :: difference xs' ys'
  | _, _ => []
  end.

Definition np_sum (xs : list N) : N := fold_right N.add 0%N xs.

Definition np_prod (s : list nat) : N := fold_right (fun d p => (N.of_nat d * p)%N) 1%N s.

Definition assert_images_equal (image1 image2 : RawImage) : bool :=
  (np_sum (difference (samples image1) (samples image2)) <? 110 * np_prod (dims image1))%N.

Definition same_dims (s1 s2 : list nat) : bool :=
  if list_eq_dec Nat.eq_dec s1 s2 then true else false.

(** An image read back is within the error budget of the one written: the
    shape is the same and [assert_images_equal] holds. *)
Definition reproduces (image image' : RawImage) : bool :=
  same_dims (dims image') (dims image) && assert_images_equal image image'.

Section Container.

(** The widths of a length prefix and of a numeric field, in bytes, and the
    number of fields of a bounding box. *)
Variables LEN_WIDTH FIELD_WIDTH BOX_WIDTH : nat.

(** Modelled from the spec: squeezeDetMX/utils.py is missing;
    [image_to_jpeg_bytes] and [jpeg_bytes_to_image] wrap an external
    compression primitive and are parameters of the container. *)
Variable image_to_jpeg_bytes : RawImage -> result bytes.
Variable jpeg_bytes_to_image : bytes -> option RawImage.

(** Modelled from the spec: squeezeDetMX/kitti.py is missing; a row is
    written as [BOX_WIDTH] fields of [FIELD_WIDTH] bytes. *)
Definition serialize_row (row : BoundingBox) : result bytes :=
  if length row =? BOX_WIDTH
  then fields <- mapR (pack FIELD_WIDTH) row ;; Ok (concat fields)
  else Err FramingError.

(** Modelled from the spec: squeezeDetMX/kitti.py is missing; the block of
    section 6: image length, image bytes, row count, fields row by row. *)
Definition serialize (image_bytes : bytes) (label : LabelTable) : result bytes :=
  image_length <- pack LEN_WIDTH (N.of_nat (length image_bytes)) ;;
  row_count <- pack LEN_WIDTH (N.of_nat (length label)) ;;
  label_bytes <- mapR serialize_row label ;;
  Ok (image_length ++ image_bytes ++ row_count ++ concat label_bytes).

Fixpoint read_fields (count : nat) (bs : bytes) : result (list N * bytes) :=
  match count with
  | 0 => Ok ([], bs)
  | S count' =>
      '(x, rest) <- read_int FIELD_WIDTH bs ;;
      '(xs, rest') <- read_fields count' rest ;;
      Ok (x :: xs, rest')
  end.

Fixpoint read_rows (count : nat) (bs : bytes) : result (LabelTable * bytes) :=
  match count with
  | 0 => Ok ([], bs)
  | S count' =>
      '(row, rest) <- read_fields BOX_WIDTH bs ;;
      '(rows, rest') <- read_rows count' rest ;;
      Ok (row :: rows, rest')
  end.

(** Modelled from the spec: squeezeDetMX/kitti.py is missing; the image
    portion of a block, with the bytes that follow it. *)
Definition deserialize_image (bs : bytes) : result (bytes * bytes) :=
  '(image_length, rest) <- read_int LEN_WIDTH bs ;; take image_length rest.

(** Modelled from the spec: squeezeDetMX/kitti.py is missing; the label
    portion of a block, with the bytes that follow it. *)
Definition deserialize_label (bs : bytes) : result (LabelTable * bytes) :=
  '(row_count, rest) <- read_int LEN_WIDTH bs ;; read_rows (N.to_nat row_count) rest.

Definition deserialize_from (bs : bytes) : result (bytes * LabelTable * bytes) :=
  '(image_bytes, rest) <- deserialize_image bs ;;
  '(label, rest') <- deserialize_label rest ;;
  Ok (image_bytes, label, rest').

(** Modelled from the spec: squeezeDetMX/kitti.py is missing; the inverse
    of [serialize] on one block. *)
Definition deserialize (bs : bytes) : result (bytes * LabelTable) :=
  '(image_bytes, label, _) <- deserialize_from bs ;; Ok (image_bytes, label).

(** The records at the head of a container, one after the other. *)
Fixpoint deserialize_n (n : nat) (bs : bytes) : result (list (bytes * LabelTable) * bytes) :=
  match n with
  | 0 => Ok ([], bs)
  | S n' =>
      '(image_bytes, label, rest) <- deserialize_from bs ;;
      '(records, rest') <- deserialize_n n' rest ;;
      Ok ((image_bytes, label) :: records, rest')
  end.

(** What [serialize] can frame: lengths and fields that fit their widths,
    rows of [BOX_WIDTH] fields. *)
Definition frameable (image_bytes : bytes) (label : LabelTable) : bool :=
  fits LEN_WIDTH (N.of_nat (length image_bytes)) &&
  fits LEN_WIDTH (N.of_nat (length label)) &&
  forallb (fun row => (length row =? BOX_WIDTH) && forallb (fits FIELD_WIDTH) row) label.

(** *** KITTIWriter *)

(** Modelled from the spec: squeezeDetMX/kitti.py is missing; the block of
    one pair: the image is compressed, then framed with its label. *)
Definition frame (image : RawImage) (label : LabelTable) : result bytes :=
  image_bytes <- image_to_jpeg_bytes image ;; serialize image_bytes label.

(** Modelled from the spec: squeezeDetMX/kitti.py is missing; the generator
    [KITTIWriter.byteIter] yields one block per aligned pair; an element
    that is an error is the exception raised when that block is asked for. *)
Fixpoint byteIter (images : list RawImage) (labels : list LabelTable) : list (result bytes) :=
  match images, labels with
  | image :: images', label :: labels' => frame image label :: byteIter images' labels'
  | _, _ => []
  end.

Fixpoint write_blocks (sink : bytes) (blocks : list (result bytes)) : bytes * result unit :=
  match blocks with
  | [] => (sink, Ok tt)
  | Ok block :: blocks' => write_blocks (sink ++ block) blocks'
  | Err e :: _ => (sink, Err e)
  end.

(** Modelled from the spec: squeezeDetMX/kitti.py is missing;
    [KITTIWriter.write] appends the blocks of [byteIter] to the sink in
    order and stops at the first one that fails; the sink as it is then is
    returned with the outcome. *)
Definition write (sink : bytes) (images : list RawImage) (labels : list LabelTable)
  : bytes * result unit :=
  write_blocks sink (byteIter images labels).

(** *** KITTIIter *)

(** Modelled from the spec: squeezeDetMX/kitti.py is missing; a reader is
    the bytes after its cursor and whether the image of the current record
    has been read. *)
Record reader : Type := { remaining : bytes; image_read : bool }.

Definition from_bytes (bytedata : bytes) : reader :=
  {| remaining := bytedata; image_read := false |}.

(** Modelled from the spec: squeezeDetMX/kitti.py is missing; [read_image]
    signals the end of the stream when no byte remains, slices the image
    portion and decodes it. *)
Definition read_image (rd : reader) : result (RawImage * reader) :=
  match remaining rd with
  | [] => Err EndOfStream
  | _ :: _ =>
      '(image_bytes, rest) <- deserialize_image (remaining rd) ;;
      match jpeg_bytes_to_image image_bytes with
      | Some image => Ok (image, {| remaining := rest; image_read := true |})
      | None => Err DecodeError
      end
  end.

(** Modelled from the spec: squeezeDetMX/kitti.py is missing; [read_label]
    reads the label portion that follows the image just read. *)
Definition read_label (rd : reader) : result (LabelTable * reader) :=
  if image_read rd
  then
    '(label, rest) <- deserialize_label (remaining rd) ;;
    Ok (label, {| remaining := rest; image_read := false |})
  else Err SequenceError.

Definition read_record (rd : reader) : result (RawImage * LabelTable * reader) :=
  '(image, rd1) <- read_image rd ;;
  '(label, rd2) <- read_label rd1 ;;
  Ok (image, label, rd2).

Fixpoint read_n (n : nat) (rd : reader) : result (list (RawImage * LabelTable) * reader) :=
  match n with
  | 0 => Ok ([], rd)
  | S n' =>
      '(image, label, rd1) <- read_record rd ;;
      '(records, rd2) <- read_n n' rd1 ;;
      Ok ((image, label) :: records, rd2)
  end.

(** The calls made on a reader, in order, each of them returning. *)
Inductive call : Type := ReadImage | ReadLabel.

Definition step (c : call) (rd : reader) : result reader :=
  match c with
  | ReadImage => '(_, rd') <- read_image rd ;; Ok rd'
  | ReadLabel => '(_, rd') <- read_label rd ;; Ok rd'
  end.

Fixpoint run (calls : list call) (rd : reader) : result reader :=
  match calls with
  | [] => Ok rd
  | c :: calls' => rd' <- step c rd ;; run calls' rd'
  end.

(** *** Files *)

(** Modelled from the spec: squeezeDetMX/kitti.py is missing; a file system
    maps a path to the content of the file there; [KITTIWriter(path)] starts
    a fresh file and [KITTIIter(path)] reads the file from its start. *)
Definition file_system : Type := String.string -> option bytes.

Definition store (fs : file_system) (path : String.string) (content : bytes) : file_system :=
  fun p => if String.eqb p path then Some content else fs p.

Definition write_file (fs : file_system) (path : String.string)
    (images : list RawImage) (labels : list LabelTable) : file_system * result unit :=
  let '(sink, outcome) := write [] images labels in (store fs path sink, outcome).

Definition open_path (fs : file_system) (path : String.string) : option reader :=
  option_map from_bytes (fs path).

(** The codec keeps an image within the budget: what it compresses, it
    decompresses to an image that reproduces the original. *)
Definition codec_ok (image : RawImage) : bool :=
  match image_to_jpeg_bytes image with
  | Ok image_bytes =>
      match jpeg_bytes_to_image image_bytes with
      | Some image' => reproduces image image'
      | None => false
      end
  | Err _ => true
  end.

End Container.

(** *** read_bboxes *)

Definition newline : Ascii.ascii := Ascii.ascii_of_nat 10.

(** The lines of a text, as [str.splitlines] gives them: the empty text has
    no line and a final newline opens no further line. *)
Fixpoint splitlines (text : String.string) : list String.string :=
  match text with
  | String.EmptyString => []
  | String.String c text' =>
      if Ascii.eqb c newline then String.EmptyString :: splitlines text'
      else match splitlines text' with
           | [] => [String.String c String.EmptyString]
           | line :: lines => String.String c line :: lines
           end
  end.

Section Labels.

Variable BOX_WIDTH : nat.

(** Modelled from the spec: squeezeDetMX/kitti.py is missing; the syntax of
    one annotation line belongs to the annotation source and is a parameter:
    [parse_line] gives the numeric fields of a line, or nothing. *)
Variable parse_line : String.string -> option BoundingBox.

(** A line is well formed when it parses to a row of [BOX_WIDTH] fields. *)
Definition parse_row (line : String.string) : option BoundingBox :=
  match parse_line line with
  | Some row => if length row =? BOX_WIDTH then Some row else None
  | None => None
  end.

Definition malformed (line : String.string) : Prop := parse_row line = None.

Fixpoint parse_lines (line_no : nat) (lines : list String.string) : result LabelTable :=
  match lines with
  | [] => Ok []
  | line :: lines' =>
      match parse_row line with
      | Some row => rows <- parse_lines (S line_no) lines' ;; Ok (row :: rows)
      | None => Err (ParseError line_no line)
      end
  end.

(** [table] holds the rows of [lines], line by line and in their order. *)
Definition rows_of (lines : list String.string) (table : LabelTable) : Prop :=
  map parse_row lines = map Some table.

(** Modelled from the spec: squeezeDetMX/kitti.py is missing; [read_bboxes]
    gives one label table per text block, a row per line in the order of the
    text, and fails at the first line that is malformed. *)
Definition read_bboxes (blocks : list String.string) : result (list LabelTable) :=
  mapR (fun block => parse_lines 0 (splitlines block)) blocks.

End Labels.

(** *** Small instances, for running the definitions *)

(** A codec that loses nothing: three bytes of shape, then the samples. *)
Definition plain_encode (image : RawImage) : result bytes :=
  Ok (map (fun d => byte_of_N (N.of_nat d)) (dims image) ++ map byte_of_N (samples image)).

Definition plain_decode (bs : bytes) : option RawImage :=
  match bs with
  | h :: w :: c :: rest =>
      Some {| dims := map (fun b => N.to_nat (Byte.to_N b)) [h; w; c];
              samples := map Byte.to_N rest |}
  | _ => None
  end.

Definition example_image (v : N) : RawImage :=
  {| dims := [1; 2; 3]; samples := [v; 1; 2; 3; 4; 5]%N |}.

(** A line syntax of one decimal digit per field. *)
Fixpoint digits_line (line : String.string) : option BoundingBox :=
  match line with
  | String.EmptyString => Some []
  | String.String c line' =>
      let d := Ascii.nat_of_ascii c in
      if (48 <=? d) && (d <=? 57)
      then option_map (cons (N.of_nat (d - 48))) (digits_line line')
      else None
  end.

End Kitti.

(** ** Facts on arrays *)

Module NDArrayFacts.
Import NDArray.

Section Lists.
Context {X Y : Type}.

Lemma nth_map_seq (f : nat -> X) (n i : nat) (d : X) :
  i < n -> nth i (map f (seq 0 n)) d = f i.
Proof.
  intros Hi.
  rewrite (nth_indep _ d (f 0)) by (rewrite length_map, length_seq; exact Hi).
  rewrite map_nth, seq_nth by exact Hi.
  reflexivity.
Qed.

Lemma map_seq_ext (f g : nat -> X) (n : nat) :
  (forall i, i < n -> f i = g i) -> map f (seq 0 n) = map g (seq 0 n).
Proof.
  intros H. apply map_ext_in. intros i Hi. apply in_seq in Hi. apply H. lia.
Qed.

Lemma list_as_map_seq (xs : list X) (d : X) :
  xs = map (fun i => nth i xs d) (seq 0 (List.length xs)).
Proof.
  apply (nth_ext _ _ d d).
  - now rewrite length_map, length_seq.
  - intros i Hi. now rewrite nth_map_seq.
Qed.

Lemma seq_shift_map (s n : nat) : seq s n = map (fun j => s + j) (seq 0 n).
Proof.
  revert s. induction n as [|n IH]; intros s; simpl.
  - reflexivity.
  - rewrite Nat.add_0_r. f_equal. rewrite (IH (S s)), <- (seq_shift n 0), map_map.
    apply map_ext. intros j. lia.
Qed.

Lemma firstn_skipn_map_seq (f : nat -> X) (c s n : nat) :
  s + n <= c ->
  firstn n (skipn s (map f (seq 0 c))) = map (fun j => f (s + j)) (seq 0 n).
Proof.
  intros H.
  replace c with (s + (n + (c - s - n))) by lia.
  rewrite !seq_app, !map_app. simpl.
  rewrite skipn_app, skipn_all2 by (rewrite length_map, length_seq; lia).
  rewrite length_map, length_seq, Nat.sub_diag. simpl.
  rewrite firstn_app, firstn_all2 by (rewrite length_map, length_seq; lia).
  rewrite length_map, length_seq, Nat.sub_diag. simpl. rewrite app_nil_r.
  rewrite (seq_shift_map s n), map_map. reflexivity.
Qed.

Lemma concat_map_seq (g : nat -> nat -> X) (a n : nat) :
  0 < a ->
  List.concat (map (fun l => map (g l) (seq 0 a)) (seq 0 n))
  = map (fun c => g (c / a) (c mod a)) (seq 0 (n * a)).
Proof.
  intros Ha. induction n as [|n IH].
  - reflexivity.
  - rewrite seq_S, map_app, concat_app, IH. simpl. rewrite app_nil_r.
    replace (a + n * a) with (n * a + a) by lia.
    rewrite seq_app, map_app. f_equal. simpl.
    rewrite (seq_shift_map (n * a) a), map_map.
    apply map_seq_ext. intros j Hj.
    replace (n * a + j) with (j + n * a) by lia.
    rewrite Nat.div_add, Nat.Div0.mod_add by lia.
    rewrite Nat.div_small, Nat.mod_small by lia. reflexivity.
Qed.

Lemma firstn_seq (n s len : nat) : firstn n (seq s len) = seq s (Nat.min n len).
Proof.
  revert s len. induction n as [|n IH]; intros s [|len]; simpl; trivial.
  now rewrite IH.
Qed.

Lemma mapM_map (f : X -> option Y) (g : X -> Y) (xs : list X) :
  (forall x, In x xs -> f x = Some (g x)) -> mapM f xs = Some (map g xs).
Proof.
  induction xs as [|x xs IH]; intros H; simpl.
  - reflexivity.
  - rewrite (H x (or_introl eq_refl)). simpl.
    rewrite IH by (intros y Hy; apply H; now right). reflexivity.
Qed.

Lemma map2_map_seq {Z : Type} (h : X -> Y -> Z) (f : nat -> X) (g : nat -> Y) (s n : nat) :
  map2 h (map f (seq s n)) (map g (seq s n)) = map (fun i => h (f i) (g i)) (seq s n).
Proof.
  revert s. induction n as [|n IH]; intros s; simpl.
  - reflexivity.
  - now rewrite IH.
Qed.

End Lists.

Section Arrays.
Context {A : Type}.
Implicit Types t x y : ndarray A.

Lemma has_shape_items d s t :
  has_shape (d :: s) t = true ->
  t = Arr (items t) /\ List.length (items t) = d /\
  forall i u, i < d -> has_shape s (nth i (items t) u) = true.
Proof.
  destruct t as [v|xs]; simpl; [discriminate|].
  intros H. apply andb_true_iff in H. destruct H as [Hl Hs].
  apply Nat.eqb_eq in Hl. repeat split; trivial.
  intros i u Hi. rewrite forallb_forall in Hs. apply Hs, nth_In. lia.
Qed.

Lemma has_shape_Arr d s (xs : list (ndarray A)) :
  List.length xs = d -> (forall x, In x xs -> has_shape s x = true) ->
  has_shape (d :: s) (Arr xs) = true.
Proof.
  intros Hl Hs. simpl. apply andb_true_iff. split.
  - now apply Nat.eqb_eq.
  - now apply forallb_forall.
Qed.

(** A rectangular array of rank two or more is the table of its items. *)
Lemma has_shape_table b c s t :
  has_shape (b :: c :: s) t = true ->
  t = table b c (item2 t) /\
  forall i j, i < b -> j < c -> has_shape s (item2 t i j) = true.
Proof.
  intros H. destruct (has_shape_items _ _ _ H) as (Ht & Hb & Hrows).
  split.
  - rewrite Ht at 1. unfold table. f_equal.
    rewrite (list_as_map_seq (items t) t), Hb at 1.
    apply map_seq_ext. intros i Hi.
    destruct (has_shape_items _ _ _ (Hrows i t Hi)) as (Hr & Hc & _).
    rewrite Hr at 1. f_equal.
    rewrite (list_as_map_seq (items (nth i (items t) t)) t), Hc at 1.
    reflexivity.
  - intros i j Hi Hj. unfold item2.
    destruct (has_shape_items _ _ _ (Hrows i t Hi)) as (_ & _ & Hch).
    now apply Hch.
Qed.

Lemma table_has_shape b c s (f : nat -> nat -> ndarray A) :
  (forall i j, i < b -> j < c -> has_shape s (f i j) = true) ->
  has_shape (b :: c :: s) (table b c f) = true.
Proof.
  intros H. apply has_shape_Arr.
  - now rewrite length_map, length_seq.
  - intros x Hx. apply in_map_iff in Hx. destruct Hx as (i & <- & Hi).
    apply in_seq in Hi. apply has_shape_Arr.
    + now rewrite length_map, length_seq.
    + intros y Hy. apply in_map_iff in Hy. destruct Hy as (j & <- & Hj).
      apply in_seq in Hj. apply H; lia.
Qed.

Lemma table_ext b c (f g : nat -> nat -> ndarray A) :
  (forall i j, i < b -> j < c -> f i j = g i j) -> table b c f = table b c g.
Proof.
  intros H. unfold table. f_equal. apply map_seq_ext. intros i Hi.
  f_equal. apply map_seq_ext. intros j Hj. now apply H.
Qed.

Lemma item2_table b c (f : nat -> nat -> ndarray A) i j :
  i < b -> j < c -> item2 (table b c f) i j = f i j.
Proof.
  intros Hi Hj. unfold item2, table. simpl.
  rewrite nth_map_seq by exact Hi. simpl. now rewrite nth_map_seq.
Qed.

(** Without an axis of size zero the shape is read off the first items. *)
Lemma has_shape_shape s t :
  forallb (Nat.ltb 0) s = true -> has_shape s t = true -> shape t = s.
Proof.
  revert t. induction s as [|d s IH]; intros t Hpos H.
  - destruct t; [reflexivity|discriminate].
  - destruct t as [v|xs]; [discriminate|].
    simpl in Hpos, H. apply andb_true_iff in Hpos, H.
    destruct Hpos as [Hd Hpos], H as [Hl Hs].
    apply Nat.ltb_lt in Hd. apply Nat.eqb_eq in Hl.
    destruct xs as [|x xs]; simpl in *; [lia|].
    apply andb_true_iff in Hs. destruct Hs as [Hx _].
    now rewrite (IH x Hpos Hx), Hl.
Qed.

Lemma shape_table b c (f : nat -> nat -> ndarray A) :
  shape (table (S b) (S c) f) = S b :: S c :: shape (f 0 0).
Proof.
  unfold table. simpl. now rewrite !length_map, !length_seq.
Qed.

Lemma slice_axis_1_table b c (f : nat -> nat -> ndarray A) s n :
  s + n <= c ->
  slice_axis 1 s n (table b c f) = table b n (fun i j => f i (s + j)).
Proof.
  intros H. unfold table. simpl. rewrite map_map. f_equal.
  apply map_ext. intros i. simpl. now rewrite firstn_skipn_map_seq.
Qed.

Lemma insert_axis_2_table b c (f : nat -> nat -> ndarray A) :
  insert_axis 2 (table b c f) = table b c (fun i j => Arr [f i j]).
Proof.
  unfold table. simpl. rewrite map_map. f_equal.
  apply map_ext. intros i. simpl. now rewrite map_map.
Qed.

Lemma slice_axis_2_table b c (f : nat -> nat -> ndarray A) s n :
  slice_axis 2 s n (table b c f)
  = table b c (fun i j => Arr (firstn n (skipn s (items (f i j))))).
Proof.
  unfold table. simpl. rewrite map_map. f_equal.
  apply map_ext. intros i. simpl. now rewrite map_map.
Qed.

Lemma squeeze_2_table b c (f : nat -> nat -> ndarray A) :
  squeeze 2 (table b c f) = table b c (fun i j => squeeze 0 (f i j)).
Proof.
  unfold table. simpl. rewrite map_map. f_equal.
  apply map_ext. intros i. simpl. now rewrite map_map.
Qed.

Lemma join_rows d m n (G : nat -> nat -> ndarray A) :
  join (S d) (map (fun l => Arr (map (G l) (seq 0 m))) (seq 0 (S n)))
  = Arr (map (fun i => join d (map (fun l => G l i) (seq 0 (S n)))) (seq 0 m)).
Proof.
  change (join (S d) ?ts)
    with (Arr (map (fun i => join d (map (fun u => nth i (items u) u) ts))
                   (seq 0 (match ts with
                           | [] => 0
                           | t :: _ => List.length (items t)
                           end)))).
  f_equal.
  replace (match map _ (seq 0 (S n)) with [] => 0 | t :: _ => List.length (items t) end)
    with m by (simpl; now rewrite length_map, length_seq).
  apply map_seq_ext. intros i Hi. f_equal. rewrite map_map.
  apply map_ext. intros l. simpl. now rewrite nth_map_seq.
Qed.

Lemma join_2_tables b c n (F : nat -> nat -> nat -> ndarray A) :
  join 2 (map (fun l => table b c (F l)) (seq 0 (S n)))
  = table b c (fun i j => Arr (List.concat (map (fun l => items (F l i j)) (seq 0 (S n))))).
Proof.
  unfold table. rewrite join_rows. f_equal. apply map_ext. intros i.
  rewrite join_rows. f_equal. apply map_ext. intros j.
  simpl join. now rewrite map_map.
Qed.

Lemma join_1_tables b c n (F : nat -> nat -> nat -> ndarray A) :
  0 < c ->
  join 1 (map (fun l => table b c (F l)) (seq 0 (S n)))
  = table b (S n * c) (fun i q => F (q / c) i (q mod c)).
Proof.
  intros Hc. unfold table. rewrite join_rows. f_equal. apply map_ext. intros i.
  cbv beta iota delta [join]. rewrite map_map. cbn [items].
  now rewrite (concat_map_seq (fun l => F l i) (S n) Hc).
Qed.

Lemma zip_with_has_shape (f : A -> A -> A) s x y :
  has_shape s x = true -> has_shape s y = true ->
  has_shape s (zip_with f (List.length s) x y) = true.
Proof.
  revert x y. induction s as [|d s IH]; intros x y Hx Hy.
  - destruct x, y; simpl in *; congruence.
  - destruct (has_shape_items _ _ _ Hx) as (Ex & Lx & Sx).
    destruct (has_shape_items _ _ _ Hy) as (Ey & Ly & Sy).
    simpl. rewrite Lx, Ly, Nat.eqb_refl.
    rewrite (list_as_map_seq (items x) x), (list_as_map_seq (items y) y), Lx, Ly.
    rewrite map2_map_seq. apply has_shape_Arr.
    + now rewrite length_map, length_seq.
    + intros u Hu. apply in_map_iff in Hu. destruct Hu as (i & <- & Hi).
      apply in_seq in Hi. apply IH; [apply Sx|apply Sy]; lia.
Qed.

Lemma zip_with_tables (f : A -> A -> A) r b c (F G : nat -> nat -> ndarray A) :
  zip_with f (S (S r)) (table b c F) (table b c G)
  = table b c (fun i j => zip_with f r (F i j) (G i j)).
Proof.
  unfold table. simpl. rewrite !length_map, Nat.eqb_refl, map2_map_seq.
  f_equal. apply map_ext. intros i. simpl.
  now rewrite !length_map, Nat.eqb_refl, map2_map_seq.
Qed.

(** Broadcasting an axis of size one against an axis of size [m]. *)
Lemma zip_with_broadcast (f : A -> A -> A) r m (X : nat -> ndarray A) y :
  0 < m ->
  zip_with f (S r) (Arr (map X (seq 0 m))) (Arr [y])
  = Arr (map (fun l => zip_with f r (X l) y) (seq 0 m)).
Proof.
  intros Hm. simpl. rewrite length_map, length_seq.
  destruct (Nat.eqb_spec m 1) as [->|Hne].
  - reflexivity.
  - now rewrite map_map.
Qed.

Lemma table_shape b c s (f : nat -> nat -> ndarray A) :
  0 < b -> 0 < c -> forallb (Nat.ltb 0) s = true ->
  (forall i j, i < b -> j < c -> has_shape s (f i j) = true) ->
  shape (table b c f) = b :: c :: s.
Proof.
  intros Hb Hc Hs Hf. apply has_shape_shape.
  - simpl. rewrite Hs. apply Nat.ltb_lt in Hb, Hc. now rewrite Hb, Hc.
  - now apply table_has_shape.
Qed.

Lemma cat_compatible_refl dim s :
  dim < List.length s -> cat_compatible dim s s = true.
Proof.
  revert s. induction dim as [|d IH]; intros [|n s] H; simpl in *; try lia.
  - now destruct (list_eq_dec Nat.eq_dec s s).
  - rewrite Nat.eqb_refl. apply IH. lia.
Qed.

Lemma concat_same_shape dim s (ts : list (ndarray A)) :
  ts <> [] -> dim < List.length s -> (forall u, In u ts -> shape u = s) ->
  concat dim ts = Some (join dim ts).
Proof.
  intros Hne Hdim Hs. unfold concat. destruct ts as [|t ts']; [congruence|].
  replace (forallb _ _) with true; [reflexivity|].
  symmetry. apply forallb_forall. intros u Hu.
  rewrite (Hs t (or_introl eq_refl)), (Hs u Hu). now apply cat_compatible_refl.
Qed.

Lemma concat_singletons {X : Type} (g : nat -> X) (ns : list nat) :
  List.concat (map (fun l => [g l]) ns) = map g ns.
Proof.
  induction ns as [|n ns IH]; simpl; [reflexivity|now rewrite IH].
Qed.

Lemma amap_table (f : A -> A) b c (F : nat -> nat -> ndarray A) :
  amap f (table b c F) = table b c (fun i j => amap f (F i j)).
Proof.
  unfold table. simpl. rewrite map_map. f_equal. apply map_ext. intros i.
  simpl. now rewrite map_map.
Qed.

Lemma amap_has_shape (f : A -> A) s t :
  has_shape s t = true -> has_shape s (amap f t) = true.
Proof.
  revert t. induction s as [|d s IH]; intros [x|xs] H; simpl in *; try congruence.
  apply andb_true_iff in H. destruct H as [Hl Hs].
  rewrite length_map, Hl. simpl. apply forallb_forall. intros u Hu.
  apply in_map_iff in Hu. destruct Hu as (v & <- & Hv).
  rewrite forallb_forall in Hs. now apply IH, Hs.
Qed.

(** Two axes of one size are combined item by item. *)
Lemma zip_with_rows (f : A -> A -> A) r n (X Y : nat -> ndarray A) :
  zip_with f (S r) (Arr (map X (seq 0 n))) (Arr (map Y (seq 0 n)))
  = Arr (map (fun l => zip_with f r (X l) (Y l)) (seq 0 n)).
Proof.
  simpl. now rewrite !length_map, Nat.eqb_refl, map2_map_seq.
Qed.

End Arrays.

End NDArrayFacts.

(** ** Facts on BigRegressionOutput *)

Module BigRegressionOutputFacts.
Import NDArray NDArrayFacts BigRegressionOutput.

Section Layer.
Variables ANCHORS_PER_GRID NUM_BBOX_ATTRS : nat.
Variable R : Type.
Variables mul add : R -> R -> R.

Local Abbreviation split_block := (split_block ANCHORS_PER_GRID NUM_BBOX_ATTRS (R := R)).
Local Abbreviation split_block_np := (split_block_np ANCHORS_PER_GRID NUM_BBOX_ATTRS (R := R)).
Local Abbreviation num_outputs := (num_outputs ANCHORS_PER_GRID (R := R)).

Lemma sections_length axis k (t : ndarray R) ts :
  sections axis k t = Some ts -> List.length ts = k.
Proof.
  unfold sections. destruct (nth_error (shape t) axis) as [c|]; [|discriminate].
  destruct (_ && _); [|discriminate].
  intros [= <-]. now rewrite length_map, length_seq.
Qed.

Lemma nd_outputs_many (ts : list (ndarray R)) :
  List.length ts <> 1 -> nd_outputs ts = Many ts.
Proof.
  destruct ts as [|t [|u ts]]; simpl; intros H; congruence.
Qed.

(** With two sections or more [nd.split] returns a list, as [np.split]. *)
Lemma split_block_agree (block : ndarray R) :
  num_outputs block <> Some 1 -> split_block block = split_block_np block.
Proof.
  unfold BigRegressionOutput.split_block, BigRegressionOutput.split_block_np.
  destruct (num_outputs block) as [k|]; [|reflexivity].
  intros Hk. simpl. unfold nd_split, np_split.
  destruct (sections 1 k block) as [ts|] eqn:E; [|reflexivity].
  simpl. rewrite nd_outputs_many; [reflexivity|].
  rewrite (sections_length _ _ _ E). congruence.
Qed.

(** *** The splits of a rectangular block *)

Section Tables.
Variables (b k : nat) (rest : list nat) (P : nat -> nat -> ndarray R).
Hypothesis Hb : 0 < b.
Hypothesis Ha : 0 < ANCHORS_PER_GRID.
Hypothesis Hk : 0 < k.
Hypothesis Hrest : forallb (Nat.ltb 0) rest = true.
Hypothesis HP :
  forall i j, i < b -> j < k * ANCHORS_PER_GRID -> has_shape rest (P i j) = true.

Local Abbreviation a := ANCHORS_PER_GRID.
Local Abbreviation block := (table b (k * a) P).
Local Abbreviation section_of := (@section_of a R b P).
Local Abbreviation expanded_section := (@expanded_section a R b P).
Local Abbreviation bbox_of := (@bbox_of a R b P).

Lemma block_shape : shape block = b :: k * a :: rest.
Proof. apply table_shape; trivial. nia. Qed.

Lemma expanded_section_has_shape l :
  l < k -> has_shape (b :: a :: 1 :: rest) (expanded_section l) = true.
Proof.
  intros Hl. apply table_has_shape. intros i j Hi Hj.
  apply has_shape_Arr; [reflexivity|].
  intros u [<-|[]]. apply HP; [exact Hi|nia].
Qed.

Lemma expanded_section_shape l :
  l < k -> shape (expanded_section l) = b :: a :: 1 :: rest.
Proof.
  intros Hl. apply has_shape_shape.
  - simpl. rewrite Hrest. apply Nat.ltb_lt in Hb, Ha. now rewrite Hb, Ha.
  - now apply expanded_section_has_shape.
Qed.

Lemma num_outputs_block : num_outputs block = Some k.
Proof.
  unfold BigRegressionOutput.num_outputs. rewrite block_shape. simpl.
  destruct (Nat.eqb_spec a 0) as [E|_]; [lia|].
  now rewrite Nat.div_mul by lia.
Qed.

Lemma sections_block : sections 1 k block = Some (map section_of (seq 0 k)).
Proof.
  unfold sections. rewrite block_shape. simpl nth_error.
  replace (0 <? k) with true by (symmetry; now apply Nat.ltb_lt).
  rewrite (Nat.mul_comm k a), Nat.Div0.mod_mul, Nat.div_mul by lia.
  simpl. f_equal. apply map_seq_ext. intros l Hl.
  rewrite (Nat.mul_comm a k). apply slice_axis_1_table. nia.
Qed.

Lemma expand_sections :
  mapM (expand_dims 2) (map section_of (seq 0 k))
  = Some (map expanded_section (seq 0 k)).
Proof.
  rewrite (mapM_map _ (insert_axis 2)).
  - rewrite map_map. f_equal. apply map_ext. intros l. apply insert_axis_2_table.
  - intros x Hx. apply in_map_iff in Hx. destruct Hx as (l & <- & Hl).
    apply in_seq in Hl. unfold expand_dims, section_of.
    rewrite table_shape with (s := rest); trivial.
    intros i j Hi Hj. apply HP; [exact Hi|nia].
Qed.

Lemma concat_expanded n :
  0 < n -> n <= k ->
  concat 2 (map expanded_section (seq 0 n)) = Some (bbox_of n).
Proof.
  intros Hn Hnk. destruct n as [|n]; [lia|].
  rewrite concat_same_shape with (s := b :: a :: 1 :: rest).
  - unfold expanded_section. rewrite join_2_tables. f_equal.
    apply table_ext. intros i j _ _. simpl items.
    now rewrite (concat_singletons (fun l => P i (l * a + j))).
  - discriminate.
  - simpl. lia.
  - intros u Hu. apply in_map_iff in Hu. destruct Hu as (l & <- & Hl).
    apply in_seq in Hl. apply expanded_section_shape. lia.
Qed.

Lemma last_expanded :
  last_item (map expanded_section (seq 0 k)) = Some (expanded_section (k - 1)).
Proof.
  destruct k as [|k']; [lia|].
  rewrite seq_S, map_app. simpl.
  destruct (map expanded_section (seq 0 k')) as [|x xs] eqn:E; simpl.
  - destruct k'; [reflexivity|discriminate].
  - rewrite last_last. do 2 f_equal. lia.
Qed.

Lemma split_block_np_block :
  0 < NUM_BBOX_ATTRS ->
  split_block_np block
  = Some (bbox_of (Nat.min NUM_BBOX_ATTRS k), expanded_section (k - 1)).
Proof.
  intros Hn. unfold BigRegressionOutput.split_block_np.
  rewrite num_outputs_block. simpl. unfold np_split.
  rewrite sections_block. simpl. rewrite expand_sections. simpl.
  rewrite firstn_map, firstn_seq, concat_expanded by lia. simpl.
  now rewrite last_expanded.
Qed.

Lemma bbox_of_has_shape n :
  n <= k -> has_shape (b :: a :: n :: rest) (bbox_of n) = true.
Proof.
  intros Hn. apply table_has_shape. intros i j Hi Hj.
  apply has_shape_Arr; [now rewrite length_map, length_seq|].
  intros u Hu. apply in_map_iff in Hu. destruct Hu as (l & <- & Hl).
  apply in_seq in Hl. apply HP; [exact Hi|nia].
Qed.

Lemma split_block_block :
  2 <= k -> 0 < NUM_BBOX_ATTRS ->
  split_block block
  = Some (bbox_of (Nat.min NUM_BBOX_ATTRS k), expanded_section (k - 1)).
Proof.
  intros H2 Hn. rewrite split_block_agree.
  - now apply split_block_np_block.
  - rewrite num_outputs_block. intros [= E]. lia.
Qed.

End Tables.

(** *** Merging *)

Section Shrink.
Variables (b n : nat) (rest : list nat) (G : nat -> nat -> nat -> ndarray R).
Hypothesis Hb : 0 < b.
Hypothesis Ha : 0 < ANCHORS_PER_GRID.
Hypothesis Hn : 0 < n.
Hypothesis Hrest : forallb (Nat.ltb 0) rest = true.
Hypothesis HG :
  forall i j l, i < b -> j < ANCHORS_PER_GRID -> l < n ->
                has_shape rest (G i j l) = true.

Local Abbreviation a := ANCHORS_PER_GRID.
Local Abbreviation layered := (@layered a R b n G).
Local Abbreviation layer := (@layer a R b G).

Lemma layered_has_shape : has_shape (b :: a :: n :: rest) layered = true.
Proof.
  apply table_has_shape. intros i j Hi Hj.
  apply has_shape_Arr; [now rewrite length_map, length_seq|].
  intros u Hu. apply in_map_iff in Hu. destruct Hu as (l & <- & Hl).
  apply in_seq in Hl. apply HG; lia.
Qed.

Lemma layered_shape : shape layered = b :: a :: n :: rest.
Proof.
  apply has_shape_shape.
  - simpl. rewrite Hrest. apply Nat.ltb_lt in Hb, Ha, Hn. now rewrite Hb, Ha, Hn.
  - apply layered_has_shape.
Qed.

Lemma layer_shape l : l < n -> shape (layer l) = b :: a :: rest.
Proof.
  intros Hl. apply table_shape; trivial. intros i j Hi Hj. now apply HG.
Qed.

Lemma squeezed_sections_layered :
  map (squeeze 2) (map (fun l => slice_axis 2 (l * (n / n)) (n / n) layered) (seq 0 n))
  = map layer (seq 0 n).
Proof.
  rewrite map_map. apply map_seq_ext. intros l Hl.
  rewrite Nat.div_same by lia. unfold layered.
  rewrite slice_axis_2_table, squeeze_2_table. apply table_ext. intros i j _ _.
  simpl items. rewrite firstn_skipn_map_seq by lia. simpl.
  f_equal. lia.
Qed.

Lemma shrink_layered :
  shrink layered = Some (map layer (seq 0 n)).
Proof.
  unfold shrink, nd_split, sections. rewrite layered_shape.
  cbn [nth_error obind].
  replace (0 <? n) with true by (symmetry; now apply Nat.ltb_lt).
  rewrite Nat.Div0.mod_same, !Nat.eqb_refl. cbn [andb].
  rewrite squeezed_sections_layered.
  destruct (Nat.eqb_spec n 1) as [->|Hne].
  - reflexivity.
  - rewrite nd_outputs_many; [reflexivity|].
    now rewrite length_map, length_seq.
Qed.

End Shrink.

(** *** The forward pass on rectangular blocks *)

Lemma broadcastable_refl s : broadcastable s s = true.
Proof.
  induction s as [|d s IH]; simpl; [reflexivity|].
  now rewrite Nat.eqb_refl, IH.
Qed.

Section Forward.
Variables (b : nat) (rest : list nat) (P L : nat -> nat -> ndarray R).
Hypothesis Hb : 0 < b.
Hypothesis Ha : 0 < ANCHORS_PER_GRID.
Hypothesis Hm : 0 < NUM_BBOX_ATTRS.
Hypothesis Hrest : forallb (Nat.ltb 0) rest = true.
Hypothesis HP :
  forall i j, i < b -> j < S NUM_BBOX_ATTRS * ANCHORS_PER_GRID ->
              has_shape rest (P i j) = true.
Hypothesis HL :
  forall i j, i < b -> j < S NUM_BBOX_ATTRS * ANCHORS_PER_GRID ->
              has_shape rest (L i j) = true.

Local Abbreviation a := ANCHORS_PER_GRID.
Local Abbreviation m := NUM_BBOX_ATTRS.
Local Abbreviation bbox_of := (@bbox_of a R).
Local Abbreviation expanded_section := (@expanded_section a R).
Local Abbreviation layered := (@layered a R).
Local Abbreviation layer := (@layer a R).
Local Abbreviation emul := (@emul R mul rest).
Local Abbreviation masked_item := (@masked_item a m R mul rest P L).
Local Abbreviation merged_item := (@merged_item a m R mul rest P L).

Lemma masked_item_has_shape i j l :
  i < b -> j < a -> l < m -> has_shape rest (masked_item i j l) = true.
Proof.
  intros Hi Hj Hl. apply zip_with_has_shape; [apply HP|apply HL]; trivial; nia.
Qed.

Lemma broadcast_mask :
  broadcast mul (bbox_of b P m) (expanded_section b L m)
  = Some (layered b m masked_item).
Proof.
  unfold broadcast.
  rewrite (has_shape_shape (b :: a :: m :: rest) (bbox_of b P m)).
  - rewrite (expanded_section_shape (k := S m) rest L Hb Ha (Nat.lt_0_succ m) Hrest HL) by lia.
    cbn [broadcastable List.length].
    rewrite !Nat.eqb_refl, broadcastable_refl, !orb_true_r. cbn [andb orb].
    f_equal. unfold bbox_of, expanded_section, layered.
    rewrite zip_with_tables. apply table_ext. intros i j _ _.
    now rewrite zip_with_broadcast.
  - simpl. rewrite Hrest. apply Nat.ltb_lt in Hb, Ha, Hm. now rewrite Hb, Ha, Hm.
  - apply (bbox_of_has_shape (k := S m) rest P Hb Ha (Nat.lt_0_succ m) HP). lia.
Qed.

Lemma merge_masked :
  merge_block [layered b m masked_item; expanded_section b P m]
  = Some (table b (S m * a) merged_item).
Proof.
  unfold merge_block. cbn [mapM].
  rewrite (shrink_layered rest masked_item Hb Ha Hm Hrest masked_item_has_shape).
  change (expanded_section b P m)
    with (layered b 1 (fun i j (_ : nat) => P i (m * a + j))).
  rewrite (shrink_layered (n := 1) rest _ Hb Ha Nat.lt_0_1 Hrest)
    by (intros i j l Hi Hj _; apply HP; [exact Hi|nia]).
  cbn [obind List.concat]. rewrite app_nil_r.
  set (F := fun l i j => if l <? m then masked_item i j l else P i (m * a + j)).
  replace (map (layer b masked_item) (seq 0 m) ++ _)
    with (map (fun l => table b a (F l)) (seq 0 (S m))).
  - rewrite concat_same_shape with (s := b :: a :: rest).
    + now rewrite join_1_tables.
    + discriminate.
    + simpl. lia.
    + intros u Hu. apply in_map_iff in Hu. destruct Hu as (l & <- & Hl).
      apply in_seq in Hl. apply table_shape; trivial.
      intros i j Hi Hj. unfold F. destruct (Nat.ltb_spec l m).
      * now apply masked_item_has_shape.
      * apply HP; [exact Hi|nia].
  - rewrite seq_S, map_app. f_equal.
    + apply map_seq_ext. intros l Hl. unfold layer, F.
      apply Nat.ltb_lt in Hl. now rewrite Hl.
    + simpl. unfold layer, F. now rewrite Nat.ltb_irrefl.
Qed.

Lemma forward_tables req0 out :
  req0 = write \/ req0 = inplace ->
  shape out = b :: S m * a :: rest ->
  forward a m mul add req0 (table b (S m * a) P) (table b (S m * a) L) out
  = Some (table b (S m * a) merged_item).
Proof.
  intros Hreq Hout. unfold forward.
  rewrite (split_block_block (k := S m) rest P Hb Ha (Nat.lt_0_succ m) Hrest HP) by lia.
  rewrite (split_block_block (k := S m) rest L Hb Ha (Nat.lt_0_succ m) Hrest HL) by lia.
  rewrite Nat.min_l by lia.
  replace (S m - 1) with m by lia.
  cbn [obind]. rewrite broadcast_mask. cbn [obind].
  rewrite merge_masked. cbn [obind].
  assert (Hs : shape (table b (S m * a) merged_item) = b :: S m * a :: rest).
  { apply table_shape; trivial; [nia|].
    intros i q Hi Hq. unfold merged_item.
    assert (q mod a < a) by (apply Nat.mod_upper_bound; lia).
    destruct (Nat.ltb_spec (q / a) m).
    - now apply masked_item_has_shape.
    - apply HP; [exact Hi|nia]. }
  unfold assign, shape_eqb. rewrite Hout, Hs.
  destruct (list_eq_dec Nat.eq_dec _ _) as [_|N]; [|congruence].
  now destruct Hreq as [-> | ->].
Qed.

Lemma merged_item_bbox i q :
  q < m * a -> merged_item i q = emul (P i q) (L i (m * a + q mod a)).
Proof.
  intros Hq. unfold merged_item, masked_item.
  assert (Hd : q / a < m) by (apply Nat.Div0.div_lt_upper_bound; lia).
  apply Nat.ltb_lt in Hd. rewrite Hd. do 2 f_equal.
  rewrite (Nat.div_mod_eq q a) at 3. lia.
Qed.

Lemma merged_item_score i q :
  m * a <= q -> q < S m * a -> merged_item i q = P i q.
Proof.
  intros Hlo Hhi. unfold merged_item.
  assert (Hd : q / a = m).
  { symmetry. apply Nat.div_unique with (q - m * a); nia. }
  rewrite Hd, Nat.ltb_irrefl. f_equal.
  rewrite (Nat.div_mod_eq q a) at 2. rewrite Hd. lia.
Qed.

Lemma merged_item_has_shape i q :
  i < b -> q < S m * a -> has_shape rest (merged_item i q) = true.
Proof.
  intros Hi Hq. unfold BigRegressionOutput.merged_item.
  assert (q mod a < a) by (apply Nat.mod_upper_bound; lia).
  destruct (Nat.ltb_spec (q / a) m).
  - now apply masked_item_has_shape.
  - apply HP; [exact Hi|nia].
Qed.

End Forward.

(** C9, amended.  On a rectangular block without empty axes whose channel
    axis has [k] times [ANCHORS_PER_GRID] items, [k] at least two,
    [split_block] and [split_block_np] compute the same result; when
    [NUM_BBOX_ATTRS] is positive the result is a pair of arrays, the first of
    shape [(b, ANCHORS_PER_GRID, min NUM_BBOX_ATTRS k, ...)] and the second
    of shape [(b, ANCHORS_PER_GRID, 1, ...)]. *)
Theorem split_block_np_same (block : ndarray R) (b k : nat) (rest : list nat) :
  has_shape (b :: k * ANCHORS_PER_GRID :: rest) block = true ->
  forallb (Nat.ltb 0) (b :: rest) = true ->
  0 < ANCHORS_PER_GRID ->
  2 <= k ->
  split_block block = split_block_np block /\
  (0 < NUM_BBOX_ATTRS ->
   exists data_bbox data_score,
     split_block_np block = Some (data_bbox, data_score) /\
     has_shape (b :: ANCHORS_PER_GRID :: Nat.min NUM_BBOX_ATTRS k :: rest)
               data_bbox = true /\
     has_shape (b :: ANCHORS_PER_GRID :: 1 :: rest) data_score = true).
Proof.
  intros Hblock Hpos Ha Hk.
  simpl in Hpos. apply andb_true_iff in Hpos. destruct Hpos as [Hb Hrest].
  apply Nat.ltb_lt in Hb.
  destruct (has_shape_table _ _ _ _ Hblock) as [E HP]. rewrite E.
  assert (Hk0 : 0 < k) by lia.
  split.
  - apply split_block_agree.
    rewrite (num_outputs_block rest (item2 block) Hb Ha Hk0 Hrest HP).
    intros [= E1]. lia.
  - intros Hn. eexists _, _. split; [|split].
    + now apply (split_block_np_block rest (item2 block) Hb Ha Hk0 Hrest HP).
    + apply (bbox_of_has_shape rest (item2 block) Hb Ha Hk0 HP). lia.
    + apply (expanded_section_has_shape rest (item2 block) Hb Ha Hk0 HP). lia.
Qed.

(** [forward] on blocks without class sections.  For a prediction, a label
    and an output array of one
    rectangular shape without empty axes, whose channel axis has
    [(NUM_BBOX_ATTRS + 1) * ANCHORS_PER_GRID] items, and a request [write] or
    [inplace], [forward] stores an array of that shape: each bounding-box
    channel [j < NUM_BBOX_ATTRS * ANCHORS_PER_GRID] is the channel of the
    prediction times, element-wise, the mask of the label for the anchor of
    [j]; each score channel is the channel of the prediction. *)
Theorem forward_masks_bbox (req0 : req_type) (pred label out : ndarray R)
        (b : nat) (rest : list nat) :
  has_shape (b :: S NUM_BBOX_ATTRS * ANCHORS_PER_GRID :: rest) pred = true ->
  has_shape (b :: S NUM_BBOX_ATTRS * ANCHORS_PER_GRID :: rest) label = true ->
  has_shape (b :: S NUM_BBOX_ATTRS * ANCHORS_PER_GRID :: rest) out = true ->
  forallb (Nat.ltb 0) (b :: rest) = true ->
  0 < ANCHORS_PER_GRID ->
  0 < NUM_BBOX_ATTRS ->
  req0 = write \/ req0 = inplace ->
  exists result,
    forward ANCHORS_PER_GRID NUM_BBOX_ATTRS mul add req0 pred label out
    = Some result /\
    has_shape (b :: S NUM_BBOX_ATTRS * ANCHORS_PER_GRID :: rest) result = true /\
    (forall i j,
        i < b -> j < NUM_BBOX_ATTRS * ANCHORS_PER_GRID ->
        item2 result i j
        = zip_with mul (List.length rest) (item2 pred i j)
            (item2 label i
               (NUM_BBOX_ATTRS * ANCHORS_PER_GRID + j mod ANCHORS_PER_GRID))) /\
    (forall i j,
        i < b ->
        NUM_BBOX_ATTRS * ANCHORS_PER_GRID <= j ->
        j < S NUM_BBOX_ATTRS * ANCHORS_PER_GRID ->
        item2 result i j = item2 pred i j).
Proof.
  intros Hpred Hlabel Hout Hpos Ha Hm Hreq.
  assert (Hso : shape out = b :: S NUM_BBOX_ATTRS * ANCHORS_PER_GRID :: rest).
  { apply has_shape_shape; [|exact Hout].
    simpl in *. apply andb_true_iff in Hpos. destruct Hpos as [Hb Hrest].
    rewrite Hb, Hrest. replace (0 <? _) with true; [reflexivity|].
    symmetry. apply Nat.ltb_lt. nia. }
  simpl in Hpos. apply andb_true_iff in Hpos. destruct Hpos as [Hb Hrest].
  apply Nat.ltb_lt in Hb.
  destruct (has_shape_table _ _ _ _ Hpred) as [EP HP].
  destruct (has_shape_table _ _ _ _ Hlabel) as [EL HL].
  exists (table b (S NUM_BBOX_ATTRS * ANCHORS_PER_GRID)
                (merged_item ANCHORS_PER_GRID NUM_BBOX_ATTRS mul rest
                             (item2 pred) (item2 label))).
  split; [|split; [|split]].
  - rewrite EP at 1. rewrite EL at 1.
    now apply forward_tables.
  - apply table_has_shape. intros i q Hi Hq.
    apply merged_item_has_shape with (b := b); trivial.
  - intros i j Hi Hj. rewrite item2_table by (trivial; nia).
    apply merged_item_bbox with (b := b); trivial.
  - intros i j Hi Hlo Hhi. rewrite item2_table by trivial.
    apply merged_item_score with (b := b); trivial.
Qed.

(** *** Merging what was split *)

Section Merge.
Variables (b n : nat) (rest : list nat).
Variable G : nat -> nat -> nat -> ndarray R.
Variable S1 : nat -> nat -> ndarray R.
Hypothesis Hb : 0 < b.
Hypothesis Ha : 0 < ANCHORS_PER_GRID.
Hypothesis Hn : 0 < n.
Hypothesis Hrest : forallb (Nat.ltb 0) rest = true.
Hypothesis HG :
  forall i j l, i < b -> j < ANCHORS_PER_GRID -> l < n ->
                has_shape rest (G i j l) = true.
Hypothesis HS :
  forall i j, i < b -> j < ANCHORS_PER_GRID -> has_shape rest (S1 i j) = true.

Local Abbreviation a := ANCHORS_PER_GRID.

(** [merge_block] lays the [n] layers of its first array out section after
    section, and the single layer of the second one after them. *)
Lemma merge_layers :
  merge_block [layered a b n G; layered a b 1 (fun i j _ => S1 i j)]
  = Some (table b (S n * a)
            (fun i q => if q / a <? n then G i (q mod a) (q / a) else S1 i (q mod a))).
Proof.
  unfold merge_block. cbn [mapM].
  rewrite (shrink_layered rest G Hb Ha Hn Hrest HG).
  rewrite (shrink_layered (n := 1) rest _ Hb Ha Nat.lt_0_1 Hrest)
    by (intros i j l Hi Hj _; now apply HS).
  cbn [obind List.concat]. rewrite app_nil_r.
  set (F := fun l i j => if l <? n then G i j l else S1 i j).
  replace (map (layer a b G) (seq 0 n) ++ _)
    with (map (fun l => table b a (F l)) (seq 0 (S n))).
  - rewrite concat_same_shape with (s := b :: a :: rest).
    + now rewrite join_1_tables.
    + discriminate.
    + simpl. lia.
    + intros u Hu. apply in_map_iff in Hu. destruct Hu as (l & <- & Hl).
      apply in_seq in Hl. apply table_shape; trivial.
      intros i j Hi Hj. unfold F. destruct (Nat.ltb_spec l n).
      * now apply HG.
      * now apply HS.
  - rewrite seq_S, map_app. f_equal.
    + apply map_seq_ext. intros l Hl. unfold layer, F.
      apply Nat.ltb_lt in Hl. now rewrite Hl.
    + simpl. unfold layer, F. now rewrite Nat.ltb_irrefl.
Qed.

End Merge.

Section SplitMerge.
Variables (b k : nat) (rest : list nat) (P : nat -> nat -> ndarray R).
Hypothesis Hb : 0 < b.
Hypothesis Ha : 0 < ANCHORS_PER_GRID.
Hypothesis Hk : 2 <= k.
Hypothesis Hm : 0 < NUM_BBOX_ATTRS.
Hypothesis Hrest : forallb (Nat.ltb 0) rest = true.
Hypothesis HP :
  forall i j, i < b -> j < k * ANCHORS_PER_GRID -> has_shape rest (P i j) = true.

Local Abbreviation a := ANCHORS_PER_GRID.
Local Abbreviation n := (Nat.min NUM_BBOX_ATTRS k).

Lemma merge_split_tables :
  merge_block [bbox_of a b P n; expanded_section a b P (k - 1)]
  = Some (table b (S n * a)
            (fun i q => if q / a <? n then P i q else P i ((k - 1) * a + q mod a))).
Proof.
  change (bbox_of a b P n) with (layered a b n (fun i j l => P i (l * a + j))).
  change (expanded_section a b P (k - 1))
    with (layered a b 1 (fun i j (_ : nat) => P i ((k - 1) * a + j))).
  rewrite (merge_layers (n := n) rest (fun i j l => P i (l * a + j))
             (fun i j => P i ((k - 1) * a + j)) Hb Ha); trivial.
  - f_equal. apply table_ext. intros i q _ _.
    destruct (q / a <? n); [|reflexivity].
    f_equal. pose proof (Nat.div_mod_eq q a). nia.
  - lia.
  - intros i j l Hi Hj Hl. apply HP; [exact Hi|nia].
  - intros i j Hi Hj. apply HP; [exact Hi|nia].
Qed.

End SplitMerge.

(** After [split_block], [merge_block] gives the block back when it has
    [NUM_BBOX_ATTRS + 1] sections: for a rectangular block without empty
    axes, of [(NUM_BBOX_ATTRS + 1) * ANCHORS_PER_GRID] channels,
    [merge_block(split_block(block))] is [block]. *)
Theorem merge_block_split_block (block : ndarray R) (b : nat) (rest : list nat) :
  has_shape (b :: S NUM_BBOX_ATTRS * ANCHORS_PER_GRID :: rest) block = true ->
  forallb (Nat.ltb 0) (b :: rest) = true ->
  0 < ANCHORS_PER_GRID ->
  0 < NUM_BBOX_ATTRS ->
  exists data_bbox data_score,
    split_block block = Some (data_bbox, data_score) /\
    merge_block [data_bbox; data_score] = Some block.
Proof.
  intros Hblock Hpos Ha Hm.
  simpl in Hpos. apply andb_true_iff in Hpos. destruct Hpos as [Hb Hrest].
  apply Nat.ltb_lt in Hb.
  destruct (has_shape_table _ _ _ _ Hblock) as [E HP].
  assert (Hk : 2 <= S NUM_BBOX_ATTRS) by lia.
  eexists _, _. split.
  - rewrite E at 1.
    apply (split_block_block (k := S NUM_BBOX_ATTRS) rest (item2 block) Hb Ha
             (Nat.lt_0_succ _) Hrest HP Hk Hm).
  - rewrite (merge_split_tables rest (item2 block) Hb Ha Hk Hm Hrest HP).
    rewrite Nat.min_l by lia. replace (S NUM_BBOX_ATTRS - 1) with NUM_BBOX_ATTRS by lia.
    f_equal. etransitivity; [|symmetry; exact E].
    apply table_ext. intros i q Hi Hq.
    destruct (Nat.ltb_spec (q / ANCHORS_PER_GRID) NUM_BBOX_ATTRS) as [Hd|Hd];
      [reflexivity|].
    f_equal. assert (q / ANCHORS_PER_GRID = NUM_BBOX_ATTRS).
    { apply Nat.le_antisymm; [|exact Hd].
      apply Nat.lt_succ_r, Nat.Div0.div_lt_upper_bound. lia. }
    pose proof (Nat.div_mod_eq q ANCHORS_PER_GRID). nia.
Qed.

(** After [split_block], [merge_block] gives the first sections and the last
    one: for a rectangular block without empty axes, of [k] sections of
    [ANCHORS_PER_GRID] channels, [k] at least two, the merged block has
    [n + 1] sections where [n] is the smaller of [NUM_BBOX_ATTRS] and [k];
    its first [n] sections are those of the block and its last section is the
    last section of the block; the sections between are dropped and, when
    [k] is at most [NUM_BBOX_ATTRS], the last section comes twice. *)
Theorem merge_block_keeps_bbox_and_score (block : ndarray R) (b k : nat)
        (rest : list nat) :
  has_shape (b :: k * ANCHORS_PER_GRID :: rest) block = true ->
  forallb (Nat.ltb 0) (b :: rest) = true ->
  0 < ANCHORS_PER_GRID ->
  2 <= k ->
  0 < NUM_BBOX_ATTRS ->
  exists data_bbox data_score merged,
    split_block block = Some (data_bbox, data_score) /\
    merge_block [data_bbox; data_score] = Some merged /\
    has_shape (b :: S (Nat.min NUM_BBOX_ATTRS k) * ANCHORS_PER_GRID :: rest) merged
    = true /\
    (forall i q,
        i < b -> q < Nat.min NUM_BBOX_ATTRS k * ANCHORS_PER_GRID ->
        item2 merged i q = item2 block i q) /\
    (forall i j,
        i < b -> j < ANCHORS_PER_GRID ->
        item2 merged i (Nat.min NUM_BBOX_ATTRS k * ANCHORS_PER_GRID + j)
        = item2 block i ((k - 1) * ANCHORS_PER_GRID + j)).
Proof.
  intros Hblock Hpos Ha Hk Hm.
  simpl in Hpos. apply andb_true_iff in Hpos. destruct Hpos as [Hb Hrest].
  apply Nat.ltb_lt in Hb.
  destruct (has_shape_table _ _ _ _ Hblock) as [E HP].
  assert (Hk0 : 0 < k) by lia.
  set (n := Nat.min NUM_BBOX_ATTRS k).
  assert (Hn : 0 < n /\ n <= k) by (unfold n; lia).
  eexists _, _, _. split; [|split; [|split; [|split]]].
  - rewrite E at 1.
    apply (split_block_block rest (item2 block) Hb Ha Hk0 Hrest HP Hk Hm).
  - apply (merge_split_tables rest (item2 block) Hb Ha Hk Hm Hrest HP).
  - apply table_has_shape. intros i q Hi Hq. fold n in Hq |- *.
    assert (q mod ANCHORS_PER_GRID < ANCHORS_PER_GRID)
      by (apply Nat.mod_upper_bound; lia).
    destruct (Nat.ltb_spec (q / ANCHORS_PER_GRID) n) as [Hd|Hd].
    + apply HP; [exact Hi|]. pose proof (Nat.div_mod_eq q ANCHORS_PER_GRID). nia.
    + apply HP; [exact Hi|nia].
  - intros i q Hi Hq. fold n in Hq |- *. rewrite item2_table by (trivial; nia).
    assert (Hd : q / ANCHORS_PER_GRID < n)
      by (apply Nat.Div0.div_lt_upper_bound; lia).
    apply Nat.ltb_lt in Hd. now rewrite Hd.
  - intros i j Hi Hj. fold n. rewrite item2_table by (trivial; nia).
    assert (Hd : (n * ANCHORS_PER_GRID + j) / ANCHORS_PER_GRID = n).
    { symmetry. apply Nat.div_unique with j; nia. }
    assert (Hr : (n * ANCHORS_PER_GRID + j) mod ANCHORS_PER_GRID = j).
    { symmetry. apply Nat.mod_unique with n; nia. }
    now rewrite Hd, Hr, Nat.ltb_irrefl.
Qed.

(** *** The backward pass on rectangular blocks *)

Section Backward.
Variable sub : R -> R -> R.
Variables two zero : R.
Variables (b : nat) (rest : list nat) (O L : nat -> nat -> ndarray R).
Hypothesis Hb : 0 < b.
Hypothesis Ha : 0 < ANCHORS_PER_GRID.
Hypothesis Hm : 0 < NUM_BBOX_ATTRS.
Hypothesis Hrest : forallb (Nat.ltb 0) rest = true.
Hypothesis HO :
  forall i j, i < b -> j < S NUM_BBOX_ATTRS * ANCHORS_PER_GRID ->
              has_shape rest (O i j) = true.
Hypothesis HL :
  forall i j, i < b -> j < S NUM_BBOX_ATTRS * ANCHORS_PER_GRID ->
              has_shape rest (L i j) = true.

Local Abbreviation a := ANCHORS_PER_GRID.
Local Abbreviation m := NUM_BBOX_ATTRS.
Local Abbreviation esub := (zip_with sub (List.length rest)).
Local Abbreviation doubled := (amap (fun x => mul x two)).
Local Abbreviation zeroed := (amap (fun x => mul x zero)).

Lemma broadcast_sub :
  broadcast sub (bbox_of a b O m) (bbox_of a b L m)
  = Some (layered a b m (fun i j l => esub (O i (l * a + j)) (L i (l * a + j)))).
Proof.
  assert (Hpos : forallb (Nat.ltb 0) (b :: a :: m :: rest) = true).
  { simpl. rewrite Hrest. apply Nat.ltb_lt in Hb, Ha, Hm. now rewrite Hb, Ha, Hm. }
  unfold broadcast.
  rewrite (has_shape_shape (b :: a :: m :: rest) (bbox_of a b O m) Hpos)
    by (apply (bbox_of_has_shape (k := S m) rest O Hb Ha (Nat.lt_0_succ m) HO); lia).
  rewrite (has_shape_shape (b :: a :: m :: rest) (bbox_of a b L m) Hpos)
    by (apply (bbox_of_has_shape (k := S m) rest L Hb Ha (Nat.lt_0_succ m) HL); lia).
  rewrite broadcastable_refl. f_equal. cbn [List.length].
  unfold bbox_of, layered. rewrite zip_with_tables. apply table_ext.
  intros i j _ _. apply zip_with_rows.
Qed.

Lemma esub_has_shape i q :
  i < b -> q < S m * a -> has_shape rest (esub (O i q) (L i q)) = true.
Proof.
  intros Hi Hq. apply zip_with_has_shape; [now apply HO|now apply HL].
Qed.

Lemma backward_tables req0 grad :
  req0 = write \/ req0 = inplace ->
  shape grad = b :: S m * a :: rest ->
  backward a m mul add sub two zero req0 (table b (S m * a) O) (table b (S m * a) L) grad
  = Some (table b (S m * a)
            (fun i q => if q / a <? m
                        then doubled (esub (O i q) (L i q))
                        else zeroed (O i (m * a + q mod a)))).
Proof.
  intros Hreq Hgrad. unfold backward.
  rewrite (split_block_block (k := S m) rest O Hb Ha (Nat.lt_0_succ m) Hrest HO) by lia.
  rewrite (split_block_block (k := S m) rest L Hb Ha (Nat.lt_0_succ m) Hrest HL) by lia.
  rewrite Nat.min_l by lia. replace (S m - 1) with m by lia.
  cbn [obind]. rewrite broadcast_sub. cbn [obind].
  set (D := fun i j l => doubled (esub (O i (l * a + j)) (L i (l * a + j)))).
  set (Z := fun i j => zeroed (O i (m * a + j))).
  replace (doubled (layered a b m _)) with (layered a b m D)
    by (unfold layered; rewrite amap_table; apply table_ext; intros i j _ _;
        simpl; now rewrite map_map).
  replace (zeroed (expanded_section a b O m)) with (layered a b 1 (fun i j (_ : nat) => Z i j))
    by (unfold layered, expanded_section; now rewrite amap_table).
  rewrite (merge_layers (n := m) rest D Z Hb Ha Hm Hrest).
  - cbn [obind].
    set (result := table b (S m * a) _).
    assert (Hr : result = table b (S m * a)
                   (fun i q => if q / a <? m
                               then doubled (esub (O i q) (L i q))
                               else zeroed (O i (m * a + q mod a)))).
    { apply table_ext. intros i q _ _. unfold D, Z.
      destruct (q / a <? m); [|reflexivity].
      replace (q / a * a + q mod a) with q; [reflexivity|].
      pose proof (Nat.div_mod_eq q a). nia. }
    assert (Hs : shape result = b :: S m * a :: rest).
    { rewrite Hr. apply table_shape; trivial; [nia|].
      intros i q Hi Hq.
      assert (q mod a < a) by (apply Nat.mod_upper_bound; lia).
      destruct (q / a <? m); apply amap_has_shape.
      - now apply esub_has_shape.
      - apply HO; [exact Hi|nia]. }
    unfold assign, shape_eqb. rewrite Hgrad, Hs.
    destruct (list_eq_dec Nat.eq_dec _ _) as [_|N]; [|congruence].
    rewrite <- Hr. now destruct Hreq as [-> | ->].
  - intros i j l Hi Hj Hl. unfold D. apply amap_has_shape, esub_has_shape; [exact Hi|nia].
  - intros i j Hi Hj. unfold Z. apply amap_has_shape, HO; [exact Hi|nia].
Qed.

End Backward.

(** [backward] stores the gradient of the squared error of the bounding
    boxes: for an output, a label and a gradient array of one rectangular
    shape without empty axes, of [(NUM_BBOX_ATTRS + 1) * ANCHORS_PER_GRID]
    channels, and a request [write] or [inplace], each bounding-box channel
    of the gradient is the output minus the label, times two, and each score
    channel is the score channel of the output times zero. *)
Theorem backward_gradient (sub : R -> R -> R) (two zero : R) (req0 : req_type)
        (out label grad : ndarray R) (b : nat) (rest : list nat) :
  has_shape (b :: S NUM_BBOX_ATTRS * ANCHORS_PER_GRID :: rest) out = true ->
  has_shape (b :: S NUM_BBOX_ATTRS * ANCHORS_PER_GRID :: rest) label = true ->
  has_shape (b :: S NUM_BBOX_ATTRS * ANCHORS_PER_GRID :: rest) grad = true ->
  forallb (Nat.ltb 0) (b :: rest) = true ->
  0 < ANCHORS_PER_GRID ->
  0 < NUM_BBOX_ATTRS ->
  req0 = write \/ req0 = inplace ->
  exists result,
    backward ANCHORS_PER_GRID NUM_BBOX_ATTRS mul add sub two zero req0 out label grad
    = Some result /\
    has_shape (b :: S NUM_BBOX_ATTRS * ANCHORS_PER_GRID :: rest) result = true /\
    (forall i j,
        i < b -> j < NUM_BBOX_ATTRS * ANCHORS_PER_GRID ->
        item2 result i j
        = amap (fun x => mul x two)
            (zip_with sub (List.length rest) (item2 out i j) (item2 label i j))) /\
    (forall i j,
        i < b ->
        NUM_BBOX_ATTRS * ANCHORS_PER_GRID <= j ->
        j < S NUM_BBOX_ATTRS * ANCHORS_PER_GRID ->
        item2 result i j = amap (fun x => mul x zero) (item2 out i j)).
Proof.
  intros Hout Hlabel Hgrad Hpos Ha Hm Hreq.
  assert (Hsg : shape grad = b :: S NUM_BBOX_ATTRS * ANCHORS_PER_GRID :: rest).
  { apply has_shape_shape; [|exact Hgrad].
    simpl in *. apply andb_true_iff in Hpos. destruct Hpos as [Hb Hrest].
    rewrite Hb, Hrest. replace (0 <? _) with true; [reflexivity|].
    symmetry. apply Nat.ltb_lt. nia. }
  simpl in Hpos. apply andb_true_iff in Hpos. destruct Hpos as [Hb Hrest].
  apply Nat.ltb_lt in Hb.
  destruct (has_shape_table _ _ _ _ Hout) as [EO HO].
  destruct (has_shape_table _ _ _ _ Hlabel) as [EL HL].
  eexists. split; [|split; [|split]].
  - rewrite EO at 1. rewrite EL at 1.
    apply backward_tables with (rest := rest); trivial.
  - apply table_has_shape. intros i q Hi Hq.
    assert (q mod ANCHORS_PER_GRID < ANCHORS_PER_GRID)
      by (apply Nat.mod_upper_bound; lia).
    destruct (q / ANCHORS_PER_GRID <? NUM_BBOX_ATTRS); apply amap_has_shape.
    + apply zip_with_has_shape; [now apply HO|now apply HL].
    + apply HO; [exact Hi|nia].
  - intros i j Hi Hj. rewrite item2_table by (trivial; nia).
    assert (Hd : j / ANCHORS_PER_GRID < NUM_BBOX_ATTRS)
      by (apply Nat.Div0.div_lt_upper_bound; lia).
    apply Nat.ltb_lt in Hd. now rewrite Hd.
  - intros i j Hi Hlo Hhi. rewrite item2_table by trivial.
    assert (Hd : j / ANCHORS_PER_GRID = NUM_BBOX_ATTRS).
    { symmetry. apply Nat.div_unique with (j - NUM_BBOX_ATTRS * ANCHORS_PER_GRID); nia. }
    rewrite Hd, Nat.ltb_irrefl. do 2 f_equal.
    pose proof (Nat.div_mod_eq j ANCHORS_PER_GRID). nia.
Qed.

(** *** The write requests *)

(** What [forward] computes does not depend on the request: the array that
    it stores on [write] is the one that it hands to [assign] on any other
    request. *)
Lemma forward_request (pred label out written : ndarray R) (req0 : req_type) :
  forward ANCHORS_PER_GRID NUM_BBOX_ATTRS mul add write pred label out = Some written ->
  forward ANCHORS_PER_GRID NUM_BBOX_ATTRS mul add req0 pred label out
  = assign add out req0 written.
Proof.
  unfold forward. intros H.
  destruct (split_block pred) as [[pred_bbox pred_score]|]; [|discriminate].
  cbn [obind] in *.
  destruct (split_block label) as [[label_bbox mask]|]; [|discriminate].
  cbn [obind] in *.
  destruct (broadcast mul pred_bbox mask) as [masked|]; [|discriminate].
  cbn [obind] in *.
  destruct (merge_block [masked; pred_score]) as [masked_pred|]; [|discriminate].
  cbn [obind] in *. unfold assign in H.
  destruct (shape_eqb _ _); [|discriminate]. now injection H as <-.
Qed.

Lemma assign_add_to s (dst src : ndarray R) :
  forallb (Nat.ltb 0) s = true ->
  has_shape s dst = true -> has_shape s src = true ->
  assign add dst add_to src = Some (zip_with add (List.length s) dst src).
Proof.
  intros Hpos Hd Hs. unfold assign, broadcast.
  rewrite (has_shape_shape s dst Hpos Hd), (has_shape_shape s src Hpos Hs).
  rewrite broadcastable_refl. cbn [obind].
  rewrite (has_shape_shape s _ Hpos (zip_with_has_shape add s dst src Hd Hs)).
  unfold shape_eqb. now destruct (list_eq_dec Nat.eq_dec s s).
Qed.

Lemma item2_zip_with (f : R -> R -> R) b c s (x y : ndarray R) i j :
  has_shape (b :: c :: s) x = true -> has_shape (b :: c :: s) y = true ->
  i < b -> j < c ->
  item2 (zip_with f (List.length (b :: c :: s)) x y) i j
  = zip_with f (List.length s) (item2 x i j) (item2 y i j).
Proof.
  intros Hx Hy Hi Hj.
  destruct (has_shape_table _ _ _ _ Hx) as [Ex _].
  destruct (has_shape_table _ _ _ _ Hy) as [Ey _].
  rewrite Ex at 1. rewrite Ey at 1. cbn [List.length].
  now rewrite zip_with_tables, item2_table.
Qed.

(** [forward] under the requests [null] and [add]: for a prediction, a label
    and an output array of one rectangular shape without empty axes, of
    [(NUM_BBOX_ATTRS + 1) * ANCHORS_PER_GRID] channels, the request [null]
    leaves the output as it is, and the request [add] adds to every element
    of the output the element that the request [write] stores there. *)
Theorem forward_null_and_add (pred label out : ndarray R) (b : nat) (rest : list nat) :
  has_shape (b :: S NUM_BBOX_ATTRS * ANCHORS_PER_GRID :: rest) pred = true ->
  has_shape (b :: S NUM_BBOX_ATTRS * ANCHORS_PER_GRID :: rest) label = true ->
  has_shape (b :: S NUM_BBOX_ATTRS * ANCHORS_PER_GRID :: rest) out = true ->
  forallb (Nat.ltb 0) (b :: rest) = true ->
  0 < ANCHORS_PER_GRID ->
  0 < NUM_BBOX_ATTRS ->
  exists written accumulated,
    forward ANCHORS_PER_GRID NUM_BBOX_ATTRS mul add write pred label out
    = Some written /\
    forward ANCHORS_PER_GRID NUM_BBOX_ATTRS mul add null pred label out
    = Some out /\
    forward ANCHORS_PER_GRID NUM_BBOX_ATTRS mul add add_to pred label out
    = Some accumulated /\
    has_shape (b :: S NUM_BBOX_ATTRS * ANCHORS_PER_GRID :: rest) accumulated = true /\
    (forall i j,
        i < b -> j < S NUM_BBOX_ATTRS * ANCHORS_PER_GRID ->
        item2 accumulated i j
        = zip_with add (List.length rest) (item2 out i j) (item2 written i j)).
Proof.
  intros Hpred Hlabel Hout Hpos Ha Hm.
  set (c := S NUM_BBOX_ATTRS * ANCHORS_PER_GRID) in *.
  assert (Hall : forallb (Nat.ltb 0) (b :: c :: rest) = true).
  { simpl in *. apply andb_true_iff in Hpos. destruct Hpos as [Hb Hrest].
    rewrite Hb, Hrest. replace (0 <? c) with true; [reflexivity|].
    symmetry. apply Nat.ltb_lt. unfold c. nia. }
  simpl in Hpos. apply andb_true_iff in Hpos. destruct Hpos as [Hb Hrest].
  apply Nat.ltb_lt in Hb.
  destruct (has_shape_table _ _ _ _ Hpred) as [EP HP].
  destruct (has_shape_table _ _ _ _ Hlabel) as [EL HL].
  set (written := table b c (merged_item ANCHORS_PER_GRID NUM_BBOX_ATTRS mul rest
                               (item2 pred) (item2 label))).
  assert (Hw : forward ANCHORS_PER_GRID NUM_BBOX_ATTRS mul add write pred label out
               = Some written).
  { rewrite EP at 1. rewrite EL at 1. apply forward_tables; trivial.
    - now left.
    - now apply has_shape_shape. }
  assert (Hws : has_shape (b :: c :: rest) written = true).
  { apply table_has_shape. intros i q Hi Hq.
    apply merged_item_has_shape with (b := b); trivial. }
  exists written, (zip_with add (List.length (b :: c :: rest)) out written).
  split; [exact Hw|]. split; [|split; [|split]].
  - now rewrite (@forward_request pred label out written null Hw).
  - rewrite (@forward_request pred label out written add_to Hw).
    now apply assign_add_to.
  - now apply zip_with_has_shape.
  - intros i j Hi Hj. now apply item2_zip_with.
Qed.

(** [split_block] reads the first sections and the last one only: two
    rectangular blocks of [k] sections, [k] at least two, that agree on the
    first [NUM_BBOX_ATTRS] sections and on the last section are split into the
    same pair, whatever the sections between hold. *)
Theorem split_block_skips_middle_sections (block block' : ndarray R) (b k : nat)
        (rest : list nat) :
  has_shape (b :: k * ANCHORS_PER_GRID :: rest) block = true ->
  has_shape (b :: k * ANCHORS_PER_GRID :: rest) block' = true ->
  forallb (Nat.ltb 0) (b :: rest) = true ->
  0 < ANCHORS_PER_GRID ->
  2 <= k ->
  0 < NUM_BBOX_ATTRS ->
  (forall i j,
      i < b -> j < k * ANCHORS_PER_GRID ->
      j < NUM_BBOX_ATTRS * ANCHORS_PER_GRID \/ (k - 1) * ANCHORS_PER_GRID <= j ->
      item2 block i j = item2 block' i j) ->
  split_block block = split_block block' /\ split_block block <> None.
Proof.
  intros Hblock Hblock' Hpos Ha Hk Hm Hsame.
  simpl in Hpos. apply andb_true_iff in Hpos. destruct Hpos as [Hb Hrest].
  apply Nat.ltb_lt in Hb.
  destruct (has_shape_table _ _ _ _ Hblock) as [E HP].
  destruct (has_shape_table _ _ _ _ Hblock') as [E' HP'].
  assert (Hk0 : 0 < k) by lia.
  assert (Hs : split_block block
               = Some (bbox_of ANCHORS_PER_GRID b (item2 block)
                         (Nat.min NUM_BBOX_ATTRS k),
                       expanded_section ANCHORS_PER_GRID b (item2 block) (k - 1))).
  { rewrite E at 1.
    apply (split_block_block rest (item2 block) Hb Ha Hk0 Hrest HP Hk Hm). }
  split; [|rewrite Hs; discriminate].
  rewrite Hs. rewrite E' at 1.
  rewrite (split_block_block rest (item2 block') Hb Ha Hk0 Hrest HP' Hk Hm).
  do 2 f_equal.
  - apply table_ext. intros i j Hi Hj. f_equal. apply map_ext_in.
    intros l Hl. apply in_seq in Hl. apply Hsame; [exact Hi|nia|left; nia].
  - apply table_ext. intros i j Hi Hj. f_equal. f_equal.
    apply Hsame; [exact Hi|nia|right; lia].
Qed.

(** *** bigMetric *)

Section Metric.
Variable sub : R -> R -> R.
Variable square : R -> R.
Variable div : R -> R -> R.
Variable asum : ndarray R -> R.
Variable EPSILON : R.

Local Abbreviation bigMetric :=
  (bigMetric ANCHORS_PER_GRID NUM_BBOX_ATTRS add sub square div asum EPSILON).
Local Abbreviation metric_calls :=
  (metric_calls ANCHORS_PER_GRID NUM_BBOX_ATTRS add sub square div asum EPSILON).

(** The loss that a call returns does not depend on the counter. *)
Lemma bigMetric_loss haha haha' label pred :
  option_map fst (snd (bigMetric haha label pred))
  = option_map fst (snd (bigMetric haha' label pred)).
Proof.
  unfold BigRegressionOutput.bigMetric. cbn [snd].
  destruct (split_block_np pred) as [[pred_bbox pred_score]|]; [|reflexivity].
  cbn [obind].
  destruct (split_block_np label) as [[label_bbox mask]|]; [|reflexivity].
  cbn [obind].
  now destruct (broadcast sub pred_bbox label_bbox).
Qed.

Lemma bigMetric_trace haha label pred loss traced :
  snd (bigMetric haha label pred) = Some (loss, traced) ->
  traced = ((haha + 1) mod 50 =? 0).
Proof.
  unfold BigRegressionOutput.bigMetric. cbn [snd].
  destruct (split_block_np pred) as [[pred_bbox pred_score]|]; [|discriminate].
  cbn [obind].
  destruct (split_block_np label) as [[label_bbox mask]|]; [|discriminate].
  cbn [obind].
  destruct (broadcast sub pred_bbox label_bbox); [|discriminate].
  cbn [obind]. now intros [= _ <-].
Qed.

Lemma metric_calls_cons haha label pred calls :
  fst (metric_calls haha ((label, pred) :: calls)) = fst (metric_calls (haha + 1) calls) /\
  snd (metric_calls haha ((label, pred) :: calls))
  = snd (bigMetric haha label pred) :: snd (metric_calls (haha + 1) calls).
Proof.
  cbn [BigRegressionOutput.metric_calls].
  change (BigRegressionOutput.bigMetric ANCHORS_PER_GRID NUM_BBOX_ATTRS add sub square
            div asum EPSILON haha label pred)
    with (haha + 1, snd (bigMetric haha label pred)).
  cbv beta iota. now destruct (metric_calls (haha + 1) calls).
Qed.


(** [bigMetric] does not look at the scores of the prediction: two
    rectangular predictions of [k] sections that agree on the first
    [NUM_BBOX_ATTRS] sections give the same loss. *)
Theorem bigMetric_ignores_scores (haha : nat) (label pred pred' : ndarray R)
        (b k : nat) (rest : list nat) :
  has_shape (b :: k * ANCHORS_PER_GRID :: rest) pred = true ->
  has_shape (b :: k * ANCHORS_PER_GRID :: rest) pred' = true ->
  forallb (Nat.ltb 0) (b :: rest) = true ->
  0 < ANCHORS_PER_GRID ->
  0 < k ->
  0 < NUM_BBOX_ATTRS ->
  (forall i j,
      i < b -> j < k * ANCHORS_PER_GRID -> j < NUM_BBOX_ATTRS * ANCHORS_PER_GRID ->
      item2 pred i j = item2 pred' i j) ->
  bigMetric haha label pred = bigMetric haha label pred'.
Proof.
  intros Hpred Hpred' Hpos Ha Hk Hm Hsame.
  simpl in Hpos. apply andb_true_iff in Hpos. destruct Hpos as [Hb Hrest].
  apply Nat.ltb_lt in Hb.
  destruct (has_shape_table _ _ _ _ Hpred) as [E HP].
  destruct (has_shape_table _ _ _ _ Hpred') as [E' HP'].
  unfold BigRegressionOutput.bigMetric. f_equal.
  rewrite E at 1. rewrite E' at 1.
  rewrite (split_block_np_block rest (item2 pred) Hb Ha Hk Hrest HP Hm).
  rewrite (split_block_np_block rest (item2 pred') Hb Ha Hk Hrest HP' Hm).
  cbn [obind].
  replace (bbox_of ANCHORS_PER_GRID b (item2 pred') (Nat.min NUM_BBOX_ATTRS k))
    with (bbox_of ANCHORS_PER_GRID b (item2 pred) (Nat.min NUM_BBOX_ATTRS k));
    [reflexivity|].
  apply table_ext. intros i j Hi Hj. f_equal. apply map_ext_in.
  intros l Hl. apply in_seq in Hl. apply Hsame; [exact Hi|nia|nia].
Qed.

End Metric.

(** *** The forward pass on blocks with class sections *)

Section ForwardAny.
Variables (b k : nat) (rest : list nat) (P L : nat -> nat -> ndarray R).
Hypothesis Hb : 0 < b.
Hypothesis Ha : 0 < ANCHORS_PER_GRID.
Hypothesis Hm : 0 < NUM_BBOX_ATTRS.
Hypothesis Hk : 2 <= k.
Hypothesis Hrest : forallb (Nat.ltb 0) rest = true.
Hypothesis HP :
  forall i j, i < b -> j < k * ANCHORS_PER_GRID -> has_shape rest (P i j) = true.
Hypothesis HL :
  forall i j, i < b -> j < k * ANCHORS_PER_GRID -> has_shape rest (L i j) = true.

Local Abbreviation a := ANCHORS_PER_GRID.
Local Abbreviation n := (Nat.min NUM_BBOX_ATTRS k).
Local Abbreviation emul := (zip_with mul (List.length rest)).

(** Attribute [l] of anchor [j] times the mask, and the score of anchor
    [j]: the layers that [forward] merges. *)
Local Abbreviation masked_layer :=
  (fun i j l => emul (P i (l * a + j)) (L i ((k - 1) * a + j))).
Local Abbreviation score_layer := (fun i j => P i ((k - 1) * a + j)).

Lemma masked_layer_has_shape i j l :
  i < b -> j < a -> l < n -> has_shape rest (masked_layer i j l) = true.
Proof.
  intros Hi Hj Hl. apply zip_with_has_shape; [apply HP|apply HL]; trivial; nia.
Qed.

Lemma score_layer_has_shape i j :
  i < b -> j < a -> has_shape rest (score_layer i j) = true.
Proof. intros Hi Hj. apply HP; [exact Hi|nia]. Qed.

Lemma broadcast_mask_sections :
  broadcast mul (bbox_of a b P n) (expanded_section a b L (k - 1))
  = Some (layered a b n masked_layer).
Proof.
  assert (Hk0 : 0 < k) by lia.
  assert (Hn : 0 < n) by lia.
  unfold broadcast.
  rewrite (has_shape_shape (b :: a :: n :: rest) (bbox_of a b P n)).
  - rewrite (expanded_section_shape rest L Hb Ha Hk0 Hrest HL) by lia.
    cbn [broadcastable List.length].
    rewrite !Nat.eqb_refl, broadcastable_refl, !orb_true_r. cbn [andb orb].
    f_equal. unfold bbox_of, expanded_section, layered.
    rewrite zip_with_tables. apply table_ext. intros i j _ _.
    now rewrite zip_with_broadcast.
  - simpl. rewrite Hrest. apply Nat.ltb_lt in Hb, Ha, Hn. now rewrite Hb, Ha, Hn.
  - apply (bbox_of_has_shape rest P Hb Ha Hk0 HP). lia.
Qed.

(** What [forward] hands to [assign]: a block of [n + 1] sections. *)
Lemma forward_sections req0 out :
  exists merged,
    forward a NUM_BBOX_ATTRS mul add req0 (table b (k * a) P) (table b (k * a) L) out
    = assign add out req0 merged /\
    merge_block [layered a b n masked_layer; expanded_section a b P (k - 1)]
    = Some merged /\
    shape merged = b :: S n * a :: rest.
Proof.
  assert (Hk0 : 0 < k) by lia.
  assert (Hn : 0 < n) by lia.
  assert (Hmerge :
    merge_block [layered a b n masked_layer; expanded_section a b P (k - 1)]
    = Some (table b (S n * a)
              (fun i q => if q / a <? n then masked_layer i (q mod a) (q / a)
                          else score_layer i (q mod a)))).
  { change (expanded_section a b P (k - 1))
      with (layered a b 1 (fun i j (_ : nat) => score_layer i j)).
    apply (merge_layers rest masked_layer score_layer Hb Ha Hn Hrest
             masked_layer_has_shape score_layer_has_shape). }
  eexists. split; [|split; [exact Hmerge|]].
  - unfold forward.
    rewrite (split_block_block rest P Hb Ha Hk0 Hrest HP Hk Hm).
    rewrite (split_block_block rest L Hb Ha Hk0 Hrest HL Hk Hm).
    cbn [obind]. rewrite broadcast_mask_sections. cbn [obind].
    rewrite Hmerge. reflexivity.
  - apply table_shape; trivial; [nia|].
    intros i q Hi Hq.
    assert (q mod a < a) by (apply Nat.mod_upper_bound; lia).
    destruct (Nat.ltb_spec (q / a) n).
    + now apply masked_layer_has_shape.
    + now apply score_layer_has_shape.
Qed.

End ForwardAny.

(** C10.  [forward] loses the class sections: for a prediction, a label and
    an output array of one rectangular shape without empty axes, of [k]
    sections of [ANCHORS_PER_GRID] channels, [k] at least two and other than
    [NUM_BBOX_ATTRS + 1], the two blocks are split, the bounding boxes are
    masked and the parts are merged into a block of [n + 1] sections, [n]
    the smaller of [NUM_BBOX_ATTRS] and [k]; this block has not the shape of
    the output and, on a request [write] or [inplace], [forward] raises
    instead of storing the masked prediction. *)
Theorem forward_loses_class_sections (req0 : req_type) (pred label out : ndarray R)
        (b k : nat) (rest : list nat) :
  has_shape (b :: k * ANCHORS_PER_GRID :: rest) pred = true ->
  has_shape (b :: k * ANCHORS_PER_GRID :: rest) label = true ->
  has_shape (b :: k * ANCHORS_PER_GRID :: rest) out = true ->
  forallb (Nat.ltb 0) (b :: rest) = true ->
  0 < ANCHORS_PER_GRID ->
  0 < NUM_BBOX_ATTRS ->
  2 <= k ->
  k <> S NUM_BBOX_ATTRS ->
  req0 = write \/ req0 = inplace ->
  (exists pred_bbox pred_score label_bbox mask masked merged,
      split_block pred = Some (pred_bbox, pred_score) /\
      split_block label = Some (label_bbox, mask) /\
      broadcast mul pred_bbox mask = Some masked /\
      merge_block [masked; pred_score] = Some merged /\
      shape merged = b :: S (Nat.min NUM_BBOX_ATTRS k) * ANCHORS_PER_GRID :: rest /\
      shape merged <> shape out) /\
  forward ANCHORS_PER_GRID NUM_BBOX_ATTRS mul add req0 pred label out = None.
Proof.
  intros Hpred Hlabel Hout Hpos Ha Hm Hk Hne Hreq.
  assert (Hso : shape out = b :: k * ANCHORS_PER_GRID :: rest).
  { apply has_shape_shape; [|exact Hout].
    simpl in *. apply andb_true_iff in Hpos. destruct Hpos as [Hb Hrest].
    rewrite Hb, Hrest. replace (0 <? _) with true; [reflexivity|].
    symmetry. apply Nat.ltb_lt. nia. }
  simpl in Hpos. apply andb_true_iff in Hpos. destruct Hpos as [Hb Hrest].
  apply Nat.ltb_lt in Hb.
  destruct (has_shape_table _ _ _ _ Hpred) as [EP HP].
  destruct (has_shape_table _ _ _ _ Hlabel) as [EL HL].
  assert (Hk0 : 0 < k) by lia.
  destruct (forward_sections rest (item2 pred) (item2 label) Hb Ha Hm Hk Hrest HP HL
              req0 out) as (merged & Hf & Hmerge & Hs).
  assert (Hdiff : shape merged <> shape out).
  { rewrite Hs, Hso. intros [= E]. nia. }
  split.
  - eexists _, _, _, _, _, merged. split; [|split; [|split; [|split; [|split]]]].
    + rewrite EP at 1.
      apply (split_block_block rest (item2 pred) Hb Ha Hk0 Hrest HP Hk Hm).
    + rewrite EL at 1.
      apply (split_block_block rest (item2 label) Hb Ha Hk0 Hrest HL Hk Hm).
    + apply (broadcast_mask_sections rest (item2 pred) (item2 label) Hb Ha Hm Hk
               Hrest HP HL).
    + exact Hmerge.
    + exact Hs.
    + exact Hdiff.
  - rewrite EP at 1. rewrite EL at 1. rewrite Hf.
    unfold assign, shape_eqb.
    destruct (list_eq_dec Nat.eq_dec (shape out) (shape merged)) as [E|_];
      [now rewrite E in Hdiff|].
    now destruct Hreq as [-> | ->].
Qed.

End Layer.

(** A block of two sections for [ANCHORS_PER_GRID = 2]. *)
Lemma split_block_np_same_witness :
  split_block 2 1 (example_block 1 4 1) = split_block_np 2 1 (example_block 1 4 1) /\
  (0 < 1 ->
   exists data_bbox data_score,
     split_block_np 2 1 (example_block 1 4 1) = Some (data_bbox, data_score) /\
     has_shape [1; 2; Nat.min 1 2; 1] data_bbox = true /\
     has_shape [1; 2; 1; 1] data_score = true).
Proof.
  apply (@split_block_np_same 2 1 Z (example_block 1 4 1) 1 2 [1]).
  - reflexivity.
  - reflexivity.
  - lia.
  - lia.
Defined.

(** C9 as stated fails on a block of a single section: with
    [ANCHORS_PER_GRID = 9] and a block of shape [(1, 9, 1)], [nd.split]
    returns the bare block, whose iteration runs over the batch axis, and
    [split_block] returns arrays of rank 3 where [split_block_np] returns
    arrays of rank 4. *)
Lemma split_block_single_section :
  has_shape [1; 1 * 9; 1] (example_block 1 9 1) = true /\
  split_block 9 4 (example_block 1 9 1) <> split_block_np 9 4 (example_block 1 9 1) /\
  option_map (fun r => shape (snd r)) (split_block 9 4 (example_block 1 9 1))
  = Some [9; 1; 1] /\
  option_map (fun r => shape (snd r)) (split_block_np 9 4 (example_block 1 9 1))
  = Some [1; 9; 1; 1].
Proof.
  repeat split; try reflexivity. vm_compute. discriminate.
Qed.

Lemma forward_masks_bbox_witness :
  exists result,
    forward 2 1 Z.mul Z.add write (example_block 1 4 2) (example_block_but 1 4 2 2 4)
            (example_block_but 1 4 2 0 4) = Some result /\
    has_shape [1; 2 * 2; 2] result = true /\
    (forall i j,
        i < 1 -> j < 1 * 2 ->
        item2 result i j
        = zip_with Z.mul 1 (item2 (example_block 1 4 2) i j)
            (item2 (example_block_but 1 4 2 2 4) i (1 * 2 + j mod 2))) /\
    (forall i j,
        i < 1 -> 1 * 2 <= j -> j < 2 * 2 ->
        item2 result i j = item2 (example_block 1 4 2) i j).
Proof.
  apply (@forward_masks_bbox 2 1 Z Z.mul Z.add write (example_block 1 4 2)
           (example_block_but 1 4 2 2 4) (example_block_but 1 4 2 0 4) 1 [2]).
  - reflexivity.
  - reflexivity.
  - reflexivity.
  - reflexivity.
  - lia.
  - lia.
  - now left.
Defined.

(** C10 fails on blocks with class sections: with [ANCHORS_PER_GRID = 9],
    [NUM_BBOX_ATTRS = 4] and blocks of shape [(1, 72, 1)], of eight sections,
    the merged block has 45 channels and cannot be assigned to the output of
    72 channels: [forward] raises. *)
Lemma forward_eight_sections :
  has_shape [1; 8 * 9; 1] (example_block 1 72 1) = true /\
  forward 9 4 Z.mul Z.add write (example_block 1 72 1) (example_block 1 72 1)
          (example_block 1 72 1) = None /\
  option_map shape
    (pred_bbox_score <- split_block 9 4 (example_block 1 72 1) ;;
     mask <- split_block 9 4 (example_block 1 72 1) ;;
     masked <- broadcast Z.mul (fst pred_bbox_score) (snd mask) ;;
     merge_block [masked; snd pred_bbox_score])
  = Some [1; 45; 1].
Proof.
  repeat split; vm_compute; reflexivity.
Qed.

Lemma forward_loses_class_sections_witness :
  (exists pred_bbox pred_score label_bbox mask masked merged,
      split_block 2 1 (example_block 1 6 2) = Some (pred_bbox, pred_score) /\
      split_block 2 1 (example_block_but 1 6 2 4 6) = Some (label_bbox, mask) /\
      broadcast Z.mul pred_bbox mask = Some masked /\
      merge_block [masked; pred_score] = Some merged /\
      shape merged = [1; S (Nat.min 1 3) * 2; 2] /\
      shape merged <> shape (example_block_but 1 6 2 0 6)) /\
  forward 2 1 Z.mul Z.add write (example_block 1 6 2) (example_block_but 1 6 2 4 6)
          (example_block_but 1 6 2 0 6) = None.
Proof.
  apply (@forward_loses_class_sections 2 1 Z Z.mul Z.add write (example_block 1 6 2)
           (example_block_but 1 6 2 4 6) (example_block_but 1 6 2 0 6) 1 3 [2]).
  - reflexivity.
  - reflexivity.
  - reflexivity.
  - reflexivity.
  - lia.
  - lia.
  - lia.
  - lia.
  - now left.
Defined.

Lemma merge_block_split_block_witness :
  exists data_bbox data_score,
    split_block 2 1 (example_block 1 4 2) = Some (data_bbox, data_score) /\
    merge_block [data_bbox; data_score] = Some (example_block 1 4 2).
Proof.
  apply (@merge_block_split_block 2 1 Z (example_block 1 4 2) 1 [2]).
  - reflexivity.
  - reflexivity.
  - lia.
  - lia.
Defined.

Lemma merge_block_keeps_bbox_and_score_witness :
  exists data_bbox data_score merged,
    split_block 2 1 (example_block 1 6 1) = Some (data_bbox, data_score) /\
    merge_block [data_bbox; data_score] = Some merged /\
    has_shape [1; S (Nat.min 1 3) * 2; 1] merged = true /\
    (forall i q,
        i < 1 -> q < Nat.min 1 3 * 2 ->
        item2 merged i q = item2 (example_block 1 6 1) i q) /\
    (forall i j,
        i < 1 -> j < 2 ->
        item2 merged i (Nat.min 1 3 * 2 + j)
        = item2 (example_block 1 6 1) i ((3 - 1) * 2 + j)).
Proof.
  apply (@merge_block_keeps_bbox_and_score 2 1 Z (example_block 1 6 1) 1 3 [1]).
  - reflexivity.
  - reflexivity.
  - lia.
  - lia.
  - lia.
Defined.

Lemma backward_gradient_witness :
  exists result,
    backward 2 1 Z.mul Z.add Z.sub 2%Z 0%Z write
             (example_block 1 4 2) (example_block_but 1 4 2 0 2) (example_block 1 4 2)
    = Some result /\
    has_shape [1; S 1 * 2; 2] result = true /\
    (forall i j,
        i < 1 -> j < 1 * 2 ->
        item2 result i j
        = amap (fun x => Z.mul x 2%Z)
            (zip_with Z.sub (List.length [2]) (item2 (example_block 1 4 2) i j)
                      (item2 (example_block_but 1 4 2 0 2) i j))) /\
    (forall i j,
        i < 1 -> 1 * 2 <= j -> j < S 1 * 2 ->
        item2 result i j = amap (fun x => Z.mul x 0%Z) (item2 (example_block 1 4 2) i j)).
Proof.
  apply (@backward_gradient 2 1 Z Z.mul Z.add Z.sub 2%Z 0%Z write
           (example_block 1 4 2) (example_block_but 1 4 2 0 2) (example_block 1 4 2)
           1 [2]).
  - reflexivity.
  - reflexivity.
  - reflexivity.
  - reflexivity.
  - lia.
  - lia.
  - now left.
Defined.

Lemma forward_null_and_add_witness :
  exists written accumulated,
    forward 2 1 Z.mul Z.add write
            (example_block 1 4 2) (example_block 1 4 2) (example_block 1 4 2)
    = Some written /\
    forward 2 1 Z.mul Z.add null
            (example_block 1 4 2) (example_block 1 4 2) (example_block 1 4 2)
    = Some (example_block 1 4 2) /\
    forward 2 1 Z.mul Z.add add_to
            (example_block 1 4 2) (example_block 1 4 2) (example_block 1 4 2)
    = Some accumulated /\
    has_shape [1; S 1 * 2; 2] accumulated = true /\
    (forall i j,
        i < 1 -> j < S 1 * 2 ->
        item2 accumulated i j
        = zip_with Z.add (List.length [2]) (item2 (example_block 1 4 2) i j)
                   (item2 written i j)).
Proof.
  apply (@forward_null_and_add 2 1 Z Z.mul Z.add
           (example_block 1 4 2) (example_block 1 4 2) (example_block 1 4 2) 1 [2]).
  - reflexivity.
  - reflexivity.
  - reflexivity.
  - reflexivity.
  - lia.
  - lia.
Defined.

Lemma split_block_skips_middle_sections_witness :
  split_block 1 1 (example_block 1 3 1) = split_block 1 1 (example_block_but 1 3 1 1 2) /\
  split_block 1 1 (example_block 1 3 1) <> None.
Proof.
  apply (@split_block_skips_middle_sections 1 1 Z
           (example_block 1 3 1) (example_block_but 1 3 1 1 2) 1 3 [1]).
  - reflexivity.
  - reflexivity.
  - reflexivity.
  - lia.
  - lia.
  - lia.
  - intros i j Hi Hj Hor. destruct i as [|i]; [|lia].
    destruct j as [|[|[|j]]]; try reflexivity; lia.
Defined.

Lemma bigMetric_ignores_scores_witness :
  bigMetric 2 1 Z.add Z.sub (fun x => Z.mul x x) Z.div total 1%Z 0
            (example_block 1 4 1) (example_block 1 4 1)
  = bigMetric 2 1 Z.add Z.sub (fun x => Z.mul x x) Z.div total 1%Z 0
              (example_block 1 4 1) (example_block_but 1 4 1 2 4).
Proof.
  apply (@bigMetric_ignores_scores 2 1 Z Z.add Z.sub (fun x => Z.mul x x) Z.div total
           1%Z 0 (example_block 1 4 1) (example_block 1 4 1)
           (example_block_but 1 4 1 2 4) 1 2 [1]).
  - reflexivity.
  - reflexivity.
  - reflexivity.
  - lia.
  - lia.
  - lia.
  - intros i j Hi Hj Hlt. destruct i as [|i]; [|lia].
    destruct j as [|[|j]]; try reflexivity; lia.
Defined.

(** *** Channel axes that [ANCHORS_PER_GRID] does not divide *)

Section Widths.
Variables ANCHORS_PER_GRID NUM_BBOX_ATTRS : nat.
Variable R : Type.
Variables (b k w : nat) (rest : list nat) (P : nat -> nat -> ndarray R).
Hypothesis Hb : 0 < b.
Hypothesis Hw : 0 < w.
Hypothesis Hk : 0 < k.
Hypothesis Hrest : forallb (Nat.ltb 0) rest = true.
Hypothesis HP : forall i j, i < b -> j < k * w -> has_shape rest (P i j) = true.
Hypothesis Ha : 0 < ANCHORS_PER_GRID.
Hypothesis Hsections : k * w / ANCHORS_PER_GRID = k.

(** The sections have [w] channels, the channels of the block divided by the
    number of sections, whatever [ANCHORS_PER_GRID] is. *)
Lemma split_block_np_sections :
  split_block_np ANCHORS_PER_GRID NUM_BBOX_ATTRS (table b (k * w) P)
  = if NUM_BBOX_ATTRS =? 0 then None
    else Some (bbox_of w b P (Nat.min NUM_BBOX_ATTRS k), expanded_section w b P (k - 1)).
Proof.
  unfold split_block_np, num_outputs.
  rewrite (table_shape (b := b) (c := k * w) rest P) by (trivial; nia).
  cbn [nth_error obind].
  destruct (Nat.eqb_spec ANCHORS_PER_GRID 0) as [E|_]; [lia|].
  rewrite Hsections. cbn [obind]. unfold np_split.
  rewrite (sections_block rest P Hb Hw Hk Hrest HP). cbn [obind].
  rewrite (expand_sections rest P Hb Hw Hk Hrest HP). cbn [obind].
  rewrite firstn_map, firstn_seq.
  destruct (Nat.eqb_spec NUM_BBOX_ATTRS 0) as [->|Hn]; [reflexivity|].
  rewrite (concat_expanded rest P Hb Hw Hk Hrest HP) by lia. cbn [obind].
  now rewrite (last_expanded rest P Hb Hw Hk HP).
Qed.

End Widths.

(** [split_block_np] and [split_block] do not ask for a multiple of
    [ANCHORS_PER_GRID]: on a rectangular block of [c] channels without empty
    axes, [split_block_np] returns exactly when [ANCHORS_PER_GRID] is positive
    and at most [c], the number [c / ANCHORS_PER_GRID] of sections (rounded
    down) divides [c], and [NUM_BBOX_ATTRS] is positive; the sections then
    have [c] divided by their number channels, which is [ANCHORS_PER_GRID]
    only when that divides [c]; and with two sections or more [split_block]
    does the same. *)
Theorem split_block_np_returns (ANCHORS_PER_GRID NUM_BBOX_ATTRS : nat) (R : Type)
        (block : ndarray R) (b c : nat) (rest : list nat) :
  has_shape (b :: c :: rest) block = true ->
  forallb (Nat.ltb 0) (b :: c :: rest) = true ->
  (split_block_np ANCHORS_PER_GRID NUM_BBOX_ATTRS block <> None <->
   0 < ANCHORS_PER_GRID /\ ANCHORS_PER_GRID <= c /\
   c mod (c / ANCHORS_PER_GRID) = 0 /\ 0 < NUM_BBOX_ATTRS) /\
  (forall data_bbox data_score,
      split_block_np ANCHORS_PER_GRID NUM_BBOX_ATTRS block
      = Some (data_bbox, data_score) ->
      has_shape (b :: c / (c / ANCHORS_PER_GRID)
                   :: Nat.min NUM_BBOX_ATTRS (c / ANCHORS_PER_GRID) :: rest)
                data_bbox = true /\
      has_shape (b :: c / (c / ANCHORS_PER_GRID) :: 1 :: rest) data_score = true) /\
  (2 <= c / ANCHORS_PER_GRID ->
   split_block ANCHORS_PER_GRID NUM_BBOX_ATTRS block
   = split_block_np ANCHORS_PER_GRID NUM_BBOX_ATTRS block).
Proof.
  intros Hblock Hpos.
  assert (Hshape : shape block = b :: c :: rest) by now apply has_shape_shape.
  simpl in Hpos. apply andb_true_iff in Hpos. destruct Hpos as [Hb Hpos].
  apply andb_true_iff in Hpos. destruct Hpos as [Hc Hrest].
  apply Nat.ltb_lt in Hb, Hc.
  set (k := c / ANCHORS_PER_GRID).
  assert (Hagree : 2 <= k ->
                   split_block ANCHORS_PER_GRID NUM_BBOX_ATTRS block
                   = split_block_np ANCHORS_PER_GRID NUM_BBOX_ATTRS block).
  { intros H2. apply split_block_agree. unfold num_outputs. rewrite Hshape.
    cbn [nth_error obind]. destruct (ANCHORS_PER_GRID =? 0); [discriminate|].
    fold k. intros [= E]. lia. }
  enough (Hmain :
    (split_block_np ANCHORS_PER_GRID NUM_BBOX_ATTRS block <> None <->
     0 < ANCHORS_PER_GRID /\ ANCHORS_PER_GRID <= c /\ c mod k = 0 /\ 0 < NUM_BBOX_ATTRS) /\
    (forall data_bbox data_score,
        split_block_np ANCHORS_PER_GRID NUM_BBOX_ATTRS block
        = Some (data_bbox, data_score) ->
        has_shape (b :: c / k :: Nat.min NUM_BBOX_ATTRS k :: rest) data_bbox = true /\
        has_shape (b :: c / k :: 1 :: rest) data_score = true))
    by (destruct Hmain; split; [|split]; assumption).
  clear Hagree.
  destruct (Nat.eq_dec ANCHORS_PER_GRID 0) as [Ha|Ha].
  { assert (Hnone : split_block_np ANCHORS_PER_GRID NUM_BBOX_ATTRS block = None).
    { unfold split_block_np, num_outputs. rewrite Hshape, Ha. reflexivity. }
    rewrite Hnone. split; [split; [congruence|lia]|discriminate]. }
  destruct (Nat.eq_dec (c mod k) 0) as [Hdiv|Hdiv]; [destruct (Nat.eq_dec k 0) as [Hk|Hk]|].
  - assert (Hnone : split_block_np ANCHORS_PER_GRID NUM_BBOX_ATTRS block = None).
    { unfold split_block_np, num_outputs. rewrite Hshape. cbn [nth_error obind].
      destruct (Nat.eqb_spec ANCHORS_PER_GRID 0); [lia|]. fold k. rewrite Hk.
      cbn [obind]. unfold np_split, sections. rewrite Hshape. reflexivity. }
    rewrite Hnone. split; [split; [congruence|]|discriminate].
    intros (_ & Hle & _). unfold k in Hk. apply Nat.div_small_iff in Hk; lia.
  - set (w := c / k).
    assert (Hcw : c = k * w) by (unfold w; now apply Nat.Div0.div_exact).
    assert (Hw : 0 < w) by nia.
    assert (Hk0 : 0 < k) by lia.
    rewrite Hcw in Hblock. destruct (has_shape_table _ _ _ _ Hblock) as [E HP].
    assert (Hs : split_block_np ANCHORS_PER_GRID NUM_BBOX_ATTRS block
                 = if NUM_BBOX_ATTRS =? 0 then None
                   else Some (bbox_of w b (item2 block) (Nat.min NUM_BBOX_ATTRS k),
                              expanded_section w b (item2 block) (k - 1))).
    { rewrite E at 1. apply split_block_np_sections with (rest := rest); trivial.
      - lia.
      - now rewrite <- Hcw. }
    rewrite Hs. destruct (Nat.eqb_spec NUM_BBOX_ATTRS 0) as [Hn|Hn].
    + split; [split; [congruence|lia]|discriminate].
    + split; [split|].
      * intros _. repeat split; try lia.
        destruct (Nat.lt_ge_cases c ANCHORS_PER_GRID) as [Hlt|Hge]; [|exact Hge].
        apply Nat.div_small in Hlt. unfold k in Hk0. lia.
      * discriminate.
      * intros data_bbox data_score [= <- <-]. fold w. split.
        -- apply (bbox_of_has_shape rest (item2 block) Hb Hw Hk0 HP). lia.
        -- apply (expanded_section_has_shape rest (item2 block) Hb Hw Hk0 HP). lia.
  - assert (Hnone : split_block_np ANCHORS_PER_GRID NUM_BBOX_ATTRS block = None).
    { unfold split_block_np, num_outputs. rewrite Hshape. cbn [nth_error obind].
      destruct (Nat.eqb_spec ANCHORS_PER_GRID 0); [lia|]. fold k.
      cbn [obind]. unfold np_split, sections. rewrite Hshape. cbn [nth_error].
      destruct (Nat.eqb_spec (c mod k) 0); [lia|]. now rewrite andb_false_r. }
    rewrite Hnone. split; [split; [congruence|]|discriminate].
    intros (_ & _ & Hdiv' & _). lia.
Qed.

(** *** A block of a single section *)

Section OneSection.
Variables ANCHORS_PER_GRID NUM_BBOX_ATTRS : nat.
Variable R : Type.
Variables (b r0 : nat) (rest : list nat) (P : nat -> nat -> ndarray R).
Variable d : ndarray R.
Hypothesis Hb : 0 < b.
Hypothesis Ha : 0 < ANCHORS_PER_GRID.
Hypothesis Hr : 0 < r0.
Hypothesis Hm : 0 < NUM_BBOX_ATTRS.
Hypothesis Hrest : forallb (Nat.ltb 0) rest = true.
Hypothesis HP :
  forall i j, i < b -> j < ANCHORS_PER_GRID -> has_shape (r0 :: rest) (P i j) = true.

Local Abbreviation a := ANCHORS_PER_GRID.

(** The items of the block with the batch axis moved behind axis 2: item
    [(j, i * r0 + l)] is item [(i, j, l)] of the block. *)
Local Abbreviation T := (fun j q => nth (q mod r0) (items (P (q / r0) j)) d).

Lemma moved_has_shape j q : j < a -> q < b * r0 -> has_shape rest (T j q) = true.
Proof.
  intros Hj Hq.
  assert (Hi : q / r0 < b) by (apply Nat.Div0.div_lt_upper_bound; lia).
  destruct (has_shape_items _ _ _ (HP Hi Hj)) as (_ & _ & Hs).
  apply Hs. apply Nat.mod_upper_bound. lia.
Qed.

Lemma row_table i :
  i < b ->
  Arr (map (fun j => P i (0 + j)) (seq 0 a))
  = table a r0 (fun j l => T j (i * r0 + l)).
Proof.
  intros Hi. unfold table. f_equal. apply map_seq_ext. intros j Hj. simpl.
  destruct (has_shape_items _ _ _ (HP Hi Hj)) as (E & Hl & _).
  rewrite E at 1. f_equal.
  rewrite (list_as_map_seq (items (P i j)) d), Hl at 1.
  apply map_seq_ext. intros l Hl'.
  replace ((i * r0 + l) / r0) with i
    by (apply Nat.div_unique with l; nia).
  replace ((i * r0 + l) mod r0) with l
    by (apply Nat.mod_unique with i; nia).
  reflexivity.
Qed.

(** With one section [nd.split] returns the block itself, and the loop of
    [split_block] runs over its batch axis. *)
Lemma split_block_rows :
  split_block a NUM_BBOX_ATTRS (table b a P)
  = Some (bbox_of r0 a T (Nat.min NUM_BBOX_ATTRS b), expanded_section r0 a T (b - 1)).
Proof.
  assert (Hpos : forallb (Nat.ltb 0) (r0 :: rest) = true).
  { simpl. rewrite Hrest. apply Nat.ltb_lt in Hr. now rewrite Hr. }
  unfold split_block, num_outputs.
  rewrite (table_shape (b := b) (c := a) (r0 :: rest) P) by trivial.
  cbn [nth_error obind]. destruct (Nat.eqb_spec a 0) as [E|_]; [lia|].
  rewrite Nat.div_same by lia. cbn [obind].
  unfold nd_split, sections.
  rewrite (table_shape (b := b) (c := a) (r0 :: rest) P) by trivial.
  cbn [nth_error]. rewrite Nat.mod_1_r, Nat.div_1_r. cbn [Nat.ltb Nat.leb Nat.eqb andb seq map].
  rewrite Nat.mul_0_l, slice_axis_1_table by lia.
  cbn [nd_outputs obind]. unfold table at 1. cbn [iter obind].
  rewrite (map_seq_ext _ (fun i => table a r0 (fun j l => T j (i * r0 + l))))
    by (intros i Hi; now apply row_table).
  rewrite (mapM_map _ (insert_axis 2)).
  - cbn [obind]. rewrite map_map.
    rewrite (map_ext _ (expanded_section r0 a T))
      by (intros i; apply insert_axis_2_table).
    rewrite firstn_map, firstn_seq.
    rewrite (concat_expanded rest T Ha Hr Hb Hrest moved_has_shape) by lia.
    cbn [obind].
    now rewrite (last_expanded rest T Ha Hr Hb moved_has_shape).
  - intros x Hx. apply in_map_iff in Hx. destruct Hx as (i & <- & Hi).
    apply in_seq in Hi. unfold expand_dims.
    rewrite table_shape with (s := rest); trivial.
    intros j l Hj Hl. apply moved_has_shape; [exact Hj|nia].
Qed.

End OneSection.

(** With a single section [split_block] splits along the batch axis: on a
    rectangular block of shape [(b, ANCHORS_PER_GRID, r0, ...)] without empty
    axes, [nd.split] returns the block itself and the loop runs over its [b]
    batch items; the result has no batch axis, [data_bbox] holds the first
    [NUM_BBOX_ATTRS] batch items side by side on axis 2 and [data_score] the
    last batch item, where [split_block_np] keeps the batch axis in front. *)
Theorem split_block_one_section (ANCHORS_PER_GRID NUM_BBOX_ATTRS : nat) (R : Type)
        (block : ndarray R) (b r0 : nat) (rest : list nat) :
  has_shape (b :: ANCHORS_PER_GRID :: r0 :: rest) block = true ->
  forallb (Nat.ltb 0) (b :: r0 :: rest) = true ->
  0 < ANCHORS_PER_GRID ->
  0 < NUM_BBOX_ATTRS ->
  exists data_bbox data_score,
    split_block ANCHORS_PER_GRID NUM_BBOX_ATTRS block = Some (data_bbox, data_score) /\
    has_shape (ANCHORS_PER_GRID :: r0 :: Nat.min NUM_BBOX_ATTRS b :: rest) data_bbox
    = true /\
    has_shape (ANCHORS_PER_GRID :: r0 :: 1 :: rest) data_score = true /\
    (forall i j l,
        i < Nat.min NUM_BBOX_ATTRS b -> j < ANCHORS_PER_GRID -> l < r0 ->
        item3 data_bbox j l i = item3 block i j l) /\
    (forall j l,
        j < ANCHORS_PER_GRID -> l < r0 ->
        item3 data_score j l 0 = item3 block (b - 1) j l).
Proof.
  intros Hblock Hpos Ha Hm.
  simpl in Hpos. apply andb_true_iff in Hpos. destruct Hpos as [Hb Hpos].
  apply andb_true_iff in Hpos. destruct Hpos as [Hr Hrest].
  apply Nat.ltb_lt in Hb, Hr.
  destruct (has_shape_table _ _ _ _ Hblock) as [E HP].
  set (T := fun j q => nth (q mod r0) (items (item2 block (q / r0) j)) block).
  assert (HT : forall j q, j < ANCHORS_PER_GRID -> q < b * r0 ->
                           has_shape rest (T j q) = true)
    by (intros j q; apply moved_has_shape with (ANCHORS_PER_GRID := ANCHORS_PER_GRID)
                      (NUM_BBOX_ATTRS := NUM_BBOX_ATTRS) (b := b); trivial).
  exists (bbox_of r0 ANCHORS_PER_GRID T (Nat.min NUM_BBOX_ATTRS b)),
         (expanded_section r0 ANCHORS_PER_GRID T (b - 1)).
  split; [|split; [|split; [|split]]].
  - rewrite E at 1. now apply split_block_rows with (rest := rest).
  - apply (bbox_of_has_shape rest T Ha Hr Hb HT). lia.
  - apply (expanded_section_has_shape rest T Ha Hr Hb HT). lia.
  - intros i j l Hi Hj Hl. unfold item3, bbox_of.
    rewrite item2_table by trivial. cbn [items].
    rewrite nth_map_seq by exact Hi. unfold T.
    replace ((i * r0 + l) / r0) with i
      by (apply Nat.div_unique with l; nia).
    replace ((i * r0 + l) mod r0) with l
      by (apply Nat.mod_unique with i; nia).
    reflexivity.
  - intros j l Hj Hl. unfold item3, expanded_section.
    rewrite item2_table by trivial. cbn [items nth]. unfold T.
    replace (((b - 1) * r0 + l) / r0) with (b - 1)
      by (apply Nat.div_unique with l; nia).
    replace (((b - 1) * r0 + l) mod r0) with l
      by (apply Nat.mod_unique with (b - 1); nia).
    reflexivity.
Qed.

Lemma split_block_one_section_witness :
  exists data_bbox data_score,
    split_block 2 4 (example_block 3 2 2) = Some (data_bbox, data_score) /\
    has_shape [2; 2; Nat.min 4 3] data_bbox = true /\
    has_shape [2; 2; 1] data_score = true /\
    (forall i j l,
        i < Nat.min 4 3 -> j < 2 -> l < 2 ->
        item3 data_bbox j l i = item3 (example_block 3 2 2) i j l) /\
    (forall j l,
        j < 2 -> l < 2 ->
        item3 data_score j l 0 = item3 (example_block 3 2 2) (3 - 1) j l).
Proof.
  apply (@split_block_one_section 2 4 Z (example_block 3 2 2) 3 2 []).
  - reflexivity.
  - reflexivity.
  - lia.
  - lia.
Defined.

(** On a matrix of a single section [split_block] raises where
    [split_block_np] returns: for a block of shape [(b, ANCHORS_PER_GRID)]
    the loop runs over the rows, which have one axis only, and
    [nd.expand_dims(row, axis=2)] is out of range. *)
Theorem split_block_matrix (ANCHORS_PER_GRID NUM_BBOX_ATTRS : nat) (R : Type)
        (block : ndarray R) (b : nat) :
  has_shape [b; ANCHORS_PER_GRID] block = true ->
  0 < b ->
  0 < ANCHORS_PER_GRID ->
  0 < NUM_BBOX_ATTRS ->
  split_block ANCHORS_PER_GRID NUM_BBOX_ATTRS block = None /\
  split_block_np ANCHORS_PER_GRID NUM_BBOX_ATTRS block <> None.
Proof.
  intros Hblock Hb Ha Hm.
  destruct (has_shape_table _ _ _ _ Hblock) as [E HP].
  assert (Hshape : shape block = [b; ANCHORS_PER_GRID]).
  { apply has_shape_shape; [|exact Hblock].
    simpl. apply Nat.ltb_lt in Hb, Ha. now rewrite Hb, Ha. }
  split.
  - unfold split_block, num_outputs. rewrite Hshape.
    cbn [nth_error obind]. destruct (Nat.eqb_spec ANCHORS_PER_GRID 0) as [E0|_]; [lia|].
    rewrite Nat.div_same by lia. cbn [obind].
    unfold nd_split, sections. rewrite Hshape.
    cbn [nth_error]. rewrite Nat.mod_1_r, Nat.div_1_r.
    cbn [Nat.ltb Nat.leb Nat.eqb andb seq map].
    rewrite Nat.mul_0_l, E, slice_axis_1_table by lia.
    cbn [nd_outputs obind]. unfold table at 1. cbn [iter obind].
    destruct b as [|b']; [lia|]. cbn [seq map mapM].
    unfold expand_dims at 1.
    destruct ANCHORS_PER_GRID as [|a']; [lia|]. cbn [seq map shape List.length].
    assert (Hs : has_shape [] (item2 block 0 (0 + 0)) = true) by (apply HP; lia).
    destruct (item2 block 0 (0 + 0)); [|discriminate Hs].
    reflexivity.
  - rewrite <- (Nat.mul_1_l ANCHORS_PER_GRID) in E. rewrite E.
    rewrite (split_block_np_sections (ANCHORS_PER_GRID := ANCHORS_PER_GRID)
               NUM_BBOX_ATTRS (k := 1) [] (item2 block) Hb Ha Nat.lt_0_1);
      trivial.
    + destruct (Nat.eqb_spec NUM_BBOX_ATTRS 0); [lia|discriminate].
    + intros i j Hi Hj. apply HP; [exact Hi|lia].
    + rewrite Nat.mul_1_l. apply Nat.div_same. lia.
Qed.

Lemma split_block_matrix_witness :
  split_block 2 1 (table 3 2 (fun i j => Scalar (Z.of_nat (10 * i + j)))) = None /\
  split_block_np 2 1 (table 3 2 (fun i j => Scalar (Z.of_nat (10 * i + j)))) <> None.
Proof.
  apply (@split_block_matrix 2 1 Z (table 3 2 (fun i j => Scalar (Z.of_nat (10 * i + j)))) 3).
  - reflexivity.
  - lia.
  - lia.
  - lia.
Defined.

Lemma split_block_np_returns_witness :
  (split_block_np 9 4 (example_block 1 20 1) <> None <->
   0 < 9 /\ 9 <= 20 /\ 20 mod (20 / 9) = 0 /\ 0 < 4) /\
  (forall data_bbox data_score,
      split_block_np 9 4 (example_block 1 20 1) = Some (data_bbox, data_score) ->
      has_shape [1; 20 / (20 / 9); Nat.min 4 (20 / 9); 1] data_bbox = true /\
      has_shape [1; 20 / (20 / 9); 1; 1] data_score = true) /\
  (2 <= 20 / 9 ->
   split_block 9 4 (example_block 1 20 1) = split_block_np 9 4 (example_block 1 20 1)).
Proof.
  apply (@split_block_np_returns 9 4 Z (example_block 1 20 1) 1 20 [1]).
  - reflexivity.
  - reflexivity.
Defined.

End BigRegressionOutputFacts.

(** ** Facts on the shapes of SqueezeDet *)

Module SqueezeDetFacts.
Import SqueezeDet.

(** The quotient and the remainder of a division that occurs in the goal or
    in a hypothesis, for [lia]. *)
Ltac pose_div a b :=
  lazymatch goal with
  | _ : a = b * (a / b) + a mod b |- _ => fail
  | _ => pose proof (Nat.div_mod_eq a b);
         assert (a mod b < b) by (apply Nat.mod_upper_bound; lia)
  end.

Ltac div_facts :=
  repeat match goal with
         | |- context [?a / ?b] => pose_div a b
         | _ : context [?a / ?b] |- _ => pose_div a b
         end.

Lemma out_size_halves x :
  out_size x 3 2 0 = if 3 <=? x then Some ((x - 1) / 2) else None.
Proof.
  unfold out_size. rewrite Nat.mul_0_r, Nat.add_0_r, andb_true_r.
  destruct (Nat.leb_spec 3 x); [|reflexivity]. f_equal. div_facts. lia.
Qed.

Lemma out_size_point x : out_size x 1 1 0 = if 1 <=? x then Some x else None.
Proof.
  unfold out_size. rewrite Nat.mul_0_r, Nat.add_0_r, andb_true_r, Nat.div_1_r.
  destruct (Nat.leb_spec 1 x); [|reflexivity]. f_equal. lia.
Qed.

Lemma out_size_same x : out_size x 3 1 1 = if 1 <=? x then Some x else None.
Proof.
  unfold out_size. rewrite andb_true_r, Nat.div_1_r.
  destruct (Nat.leb_spec 3 (x + 2 * 1)), (Nat.leb_spec 1 x); try lia; [|reflexivity].
  f_equal. lia.
Qed.

Lemma known_grid n c h w :
  0 < n -> 0 < c -> known [n; c; h; w] = (1 <=? h) && (1 <=? w).
Proof.
  intros Hn Hc. unfold known. cbn [forallb]. apply Nat.ltb_lt in Hn, Hc.
  rewrite Hn, Hc, andb_true_r. reflexivity.
Qed.

Lemma Pooling_halves n c h w :
  0 < n -> 0 < c ->
  Pooling (3, 3) (2, 2) [n; c; h; w]
  = if (3 <=? h) && (3 <=? w) then Some [n; c; (h - 1) / 2; (w - 1) / 2] else None.
Proof.
  intros Hn Hc. unfold Pooling. cbn [fst snd].
  rewrite known_grid, !out_size_halves by assumption.
  destruct (Nat.leb_spec 3 h), (Nat.leb_spec 3 w),
    (Nat.leb_spec 1 h), (Nat.leb_spec 1 w); try lia; reflexivity.
Qed.

Lemma Convolution_halves f n c h w :
  0 < n -> 0 < c -> 0 < f ->
  Convolution f (3, 3) (2, 2) (0, 0) [n; c; h; w]
  = if (3 <=? h) && (3 <=? w) then Some [n; f; (h - 1) / 2; (w - 1) / 2] else None.
Proof.
  intros Hn Hc Hf. unfold Convolution. cbn [fst snd].
  rewrite known_grid, !out_size_halves by assumption.
  apply Nat.ltb_lt in Hf. rewrite Hf, andb_true_r.
  destruct (Nat.leb_spec 3 h), (Nat.leb_spec 3 w),
    (Nat.leb_spec 1 h), (Nat.leb_spec 1 w); try lia; reflexivity.
Qed.

Lemma Convolution_same f n c h w :
  0 < n -> 0 < c -> 0 < f ->
  Convolution f (3, 3) (1, 1) (1, 1) [n; c; h; w]
  = if (1 <=? h) && (1 <=? w) then Some [n; f; h; w] else None.
Proof.
  intros Hn Hc Hf. unfold Convolution. cbn [fst snd].
  rewrite known_grid, !out_size_same by assumption.
  apply Nat.ltb_lt in Hf. rewrite Hf, andb_true_r.
  now destruct (1 <=? h), (1 <=? w).
Qed.

Lemma Convolution_point f n c h w :
  0 < n -> 0 < c -> 0 < f ->
  Convolution f (1, 1) (1, 1) (0, 0) [n; c; h; w]
  = if (1 <=? h) && (1 <=? w) then Some [n; f; h; w] else None.
Proof.
  intros Hn Hc Hf. unfold Convolution. cbn [fst snd].
  rewrite known_grid, !out_size_point by assumption.
  apply Nat.ltb_lt in Hf. rewrite Hf, andb_true_r.
  now destruct (1 <=? h), (1 <=? w).
Qed.

Lemma fire_layer_shape (n c h w s1x1 e1x1 e3x3 : nat) :
  0 < n -> 0 < c -> 0 < s1x1 -> 0 < e1x1 -> 0 < e3x3 ->
  _fire_layer [n; c; h; w] s1x1 e1x1 e3x3
  = if (1 <=? h) && (1 <=? w) then Some [n; e1x1 + e3x3; h; w] else None.
Proof.
  intros Hn Hc Hs H1 H3. unfold _fire_layer, Activation.
  rewrite Convolution_point by assumption.
  destruct ((1 <=? h) && (1 <=? w)) eqn:E; [|reflexivity].
  cbn [obind]. rewrite known_grid, E by assumption. cbn [obind].
  rewrite Convolution_point, E by assumption. cbn [obind].
  rewrite known_grid, E by assumption. cbn [obind].
  rewrite Convolution_same, E by assumption. cbn [obind].
  rewrite known_grid, E by assumption. cbn [obind].
  unfold Concat. rewrite !known_grid, E, !Nat.eqb_refl by assumption. reflexivity.
Qed.

(** A fire layer keeps the grid: on a batch of [n] maps of [h] by [w] cells
    with [c] channels, [n], [c] and the three numbers of filters positive, it
    gives [e1x1 + e3x3] channels on the same grid; its two branches have one
    shape, so that [sym.Concat] never fails; no shape is inferred only when
    the grid has no rows or no columns. *)
Theorem fire_layer_keeps_grid (n c h w s1x1 e1x1 e3x3 : nat) :
  0 < n -> 0 < c -> 0 < s1x1 -> 0 < e1x1 -> 0 < e3x3 ->
  _fire_layer [n; c; h; w] s1x1 e1x1 e3x3
  = if (1 <=? h) && (1 <=? w) then Some [n; e1x1 + e3x3; h; w] else None.
Proof. apply fire_layer_shape. Qed.

Lemma fire_layer_keeps_grid_witness :
  _fire_layer [2; 64; 5; 7] 16 64 64
  = if (1 <=? 5) && (1 <=? 7) then Some [2; 64 + 64; 5; 7] else None.
Proof. apply (@fire_layer_keeps_grid 2 64 5 7 16 64 64); lia. Defined.

(** The comparisons of the hypotheses, as propositions. *)
Ltac guards :=
  repeat match goal with
         | G : _ && _ = true |- _ => apply andb_true_iff in G; destruct G
         | G : _ && _ = false |- _ => apply andb_false_iff in G; destruct G
         | G : (_ <=? _) = true |- _ => apply Nat.leb_le in G
         | G : (_ <=? _) = false |- _ => apply Nat.leb_gt in G
         end.

(** Closes a goal on the grid by arithmetic, in each case of the two
    comparisons of the statement. *)
Ltac grid H W :=
  guards;
  destruct (Nat.leb_spec 31 H), (Nat.leb_spec 31 W); cbn [andb];
  try reflexivity; try (exfalso; div_facts; lia).

(** One layer of the network: its shape lemma, then the two cases of its
    guard; [last] closes the case in which no shape is inferred. *)
Ltac layer lem last :=
  rewrite lem by lia;
  match goal with
  | |- context [if ?g then _ else _] => destruct g eqn:?; cbn [obind]; [|last]
  end.

(** The network divides the grid by sixteen: for a batch of [n] images of
    [H] by [W] pixels with [c] channels and a label of a known shape, [n],
    [c] and [NUM_OUT_CHANNELS] positive, the output of the loss layer has
    [NUM_OUT_CHANNELS] channels on a grid of [(H - 15) / 16] by
    [(W - 15) / 16] cells; no shape is inferred exactly when the image has
    fewer than 31 rows or 31 columns. *)
Theorem error_grid (NUM_OUT_CHANNELS n c H W : nat) (label : list nat) :
  0 < n -> 0 < c -> 0 < NUM_OUT_CHANNELS -> known label = true ->
  error NUM_OUT_CHANNELS [n; c; H; W] label
  = if (31 <=? H) && (31 <=? W)
    then Some [n; NUM_OUT_CHANNELS; (H - 15) / 16; (W - 15) / 16]
    else None.
Proof.
  intros Hn Hc Hout Hlabel.
  set (expected := if (31 <=? H) && (31 <=? W) then _ else _).
  unfold error, add_forward, Activation, Dropout.
  layer Convolution_halves ltac:(subst expected; grid H W).
  rewrite known_grid by lia.
  match goal with
  | |- context [if ?g then _ else _] =>
      destruct g eqn:?; cbn [obind]; [|subst expected; grid H W]
  end.
  layer Pooling_halves ltac:(subst expected; grid H W).
  do 2 layer fire_layer_shape ltac:(subst expected; grid H W).
  layer Pooling_halves ltac:(subst expected; grid H W).
  do 2 layer fire_layer_shape ltac:(subst expected; grid H W).
  layer Pooling_halves ltac:(subst expected; grid H W).
  do 6 layer fire_layer_shape ltac:(subst expected; grid H W).
  rewrite known_grid by lia.
  match goal with
  | |- context [if ?g then _ else _] =>
      destruct g eqn:?; cbn [obind]; [|subst expected; grid H W]
  end.
  layer Convolution_same ltac:(subst expected; grid H W).
  unfold add_loss, infer_shape. rewrite known_grid, Hlabel by lia.
  match goal with
  | |- context [if ?g then _ else _] =>
      destruct g eqn:?; cbn [nth_error obind]; [|subst expected; grid H W]
  end.
  subst expected. grid H W.
  do 3 f_equal. f_equal; [|f_equal]; div_facts; lia.
Qed.

Lemma error_grid_witness :
  error 72 [1; 3; 375; 1242] [1; 72; 22; 76]
  = if (31 <=? 375) && (31 <=? 1242)
    then Some [1; 72; (375 - 15) / 16; (1242 - 15) / 16]
    else None.
Proof.
  apply (@error_grid 72 1 3 375 1242 [1; 72; 22; 76]); [lia|lia|lia|reflexivity].
Defined.

End SqueezeDetFacts.

(** ** Facts on the record container *)

Module KittiFacts.
Import Kitti.
Local Open Scope result_scope.

(** Splits a successful [rbind] in hypothesis [H] into its two steps. *)
Ltac bind_ok H :=
  match type of H with
  | rbind ?m _ = Ok _ =>
      let E := fresh "E" in
      destruct m eqn:E; cbn [rbind] in H; [|discriminate H]
  end.

Lemma byte_of_N_to_N n : Byte.to_N (byte_of_N n) = (n mod 256)%N.
Proof.
  unfold byte_of_N. destruct (Byte.of_N (n mod 256)) eqn:E.
  - now apply Byte.to_of_N.
  - apply Byte.of_N_None_iff in E. pose proof (N.mod_lt n 256). lia.
Qed.

Lemma le_encode_length w n : length (le_encode w n) = w.
Proof.
  revert n. induction w as [|w IH]; intros n; simpl; [reflexivity|].
  now rewrite IH.
Qed.

Lemma le_decode_encode w n : fits w n = true -> le_decode (le_encode w n) = n.
Proof.
  unfold fits. revert n. induction w as [|w IH]; intros n H; apply N.ltb_lt in H.
  - simpl in *. lia.
  - cbn [le_encode le_decode]. rewrite byte_of_N_to_N, IH.
    + pose proof (N.div_mod' n 256). lia.
    + apply N.ltb_lt. rewrite Nat2N.inj_succ, N.pow_succ_r' in H.
      apply N.Div0.div_lt_upper_bound; lia.
Qed.

Lemma take_app (a b : bytes) : take (N.of_nat (length a)) (a ++ b) = Ok (a, b).
Proof.
  unfold take. rewrite length_app, Nat2N.inj_add.
  destruct (N.leb_spec (N.of_nat (length a)) (N.of_nat (length a) + N.of_nat (length b)));
    [|lia].
  rewrite Nat2N.id, firstn_app, skipn_app, Nat.sub_diag, firstn_all, skipn_all.
  simpl. now rewrite app_nil_r.
Qed.

Lemma read_int_pack w n p rest : pack w n = Ok p -> read_int w (p ++ rest) = Ok (n, rest).
Proof.
  unfold pack. destruct (fits w n) eqn:F; [|discriminate]. intros [= <-].
  unfold read_int. rewrite <- (le_encode_length w n) at 1. rewrite take_app.
  cbn. now rewrite le_decode_encode.
Qed.

Lemma mapR_length {X Y : Type} (f : X -> result Y) xs ys :
  mapR f xs = Ok ys -> length ys = length xs.
Proof.
  revert ys. induction xs as [|x xs IH]; intros ys H; simpl in H.
  - now injection H as <-.
  - bind_ok H. bind_ok H. injection H as <-. simpl. f_equal. now apply IH.
Qed.

Section Container.
Variables LEN_WIDTH FIELD_WIDTH BOX_WIDTH : nat.

Local Abbreviation serialize_row := (serialize_row FIELD_WIDTH BOX_WIDTH).
Local Abbreviation serialize := (serialize LEN_WIDTH FIELD_WIDTH BOX_WIDTH).
Local Abbreviation read_fields := (read_fields FIELD_WIDTH).
Local Abbreviation read_rows := (read_rows FIELD_WIDTH BOX_WIDTH).
Local Abbreviation deserialize_image := (deserialize_image LEN_WIDTH).
Local Abbreviation deserialize_label := (deserialize_label LEN_WIDTH FIELD_WIDTH BOX_WIDTH).
Local Abbreviation deserialize_from := (deserialize_from LEN_WIDTH FIELD_WIDTH BOX_WIDTH).
Local Abbreviation deserialize := (deserialize LEN_WIDTH FIELD_WIDTH BOX_WIDTH).
Local Abbreviation deserialize_n := (deserialize_n LEN_WIDTH FIELD_WIDTH BOX_WIDTH).
Local Abbreviation frameable := (frameable LEN_WIDTH FIELD_WIDTH BOX_WIDTH).

Lemma read_fields_packed row fields rest :
  mapR (pack FIELD_WIDTH) row = Ok fields ->
  read_fields (length row) (concat fields ++ rest) = Ok (row, rest).
Proof.
  revert fields. induction row as [|x row IH]; intros fields H; simpl in H.
  - now injection H as <-.
  - bind_ok H. bind_ok H. injection H as <-.
    cbn [length Kitti.read_fields concat]. rewrite <- app_assoc.
    erewrite read_int_pack by eassumption. cbn.
    rewrite (IH _ eq_refl). reflexivity.
Qed.

Lemma read_fields_row row block rest :
  serialize_row row = Ok block -> read_fields BOX_WIDTH (block ++ rest) = Ok (row, rest).
Proof.
  unfold Kitti.serialize_row. destruct (Nat.eqb_spec (length row) BOX_WIDTH) as [<-|];
    [|discriminate].
  intros H. bind_ok H. injection H as <-. now apply read_fields_packed.
Qed.

Lemma read_rows_label label blocks rest :
  mapR serialize_row label = Ok blocks ->
  read_rows (length label) (concat blocks ++ rest) = Ok (label, rest).
Proof.
  revert blocks. induction label as [|row label IH]; intros blocks H; simpl in H.
  - now injection H as <-.
  - bind_ok H. bind_ok H. injection H as <-.
    cbn [length Kitti.read_rows concat]. rewrite <- app_assoc.
    erewrite read_fields_row by eassumption. cbn.
    rewrite (IH _ eq_refl). reflexivity.
Qed.

Lemma pack_length w n p : pack w n = Ok p -> length p = w.
Proof.
  unfold pack. destruct (fits w n); [|discriminate]. intros [= <-].
  apply le_encode_length.
Qed.

Lemma mapR_ok {X Y : Type} (f : X -> result Y) xs :
  (forall x, In x xs -> exists y, f x = Ok y) -> exists ys, mapR f xs = Ok ys.
Proof.
  induction xs as [|x xs IH]; intros H; simpl.
  - now exists [].
  - destruct (H x (or_introl eq_refl)) as [y ->].
    destruct IH as [ys ->]; [intros z Hz; apply H; now right|].
    cbn. now eexists.
Qed.

(** A block is the image portion followed by the label portion. *)
Lemma serialize_parts image_bytes label block rest :
  serialize image_bytes label = Ok block ->
  exists tail,
    deserialize_image (block ++ rest) = Ok (image_bytes, tail ++ rest) /\
    deserialize_label (tail ++ rest) = Ok (label, rest) /\
    length block = LEN_WIDTH + length image_bytes + length tail.
Proof.
  unfold Kitti.serialize. intros H. bind_ok H. bind_ok H. bind_ok H. injection H as <-.
  exists (a0 ++ concat a1). split; [|split].
  - unfold Kitti.deserialize_image. rewrite <- !app_assoc.
    erewrite read_int_pack by eassumption. cbn.
    now rewrite take_app.
  - unfold Kitti.deserialize_label. rewrite <- !app_assoc.
    erewrite read_int_pack by eassumption. cbn.
    rewrite Nat2N.id. now apply read_rows_label.
  - rewrite !length_app, (pack_length _ _ E). lia.
Qed.

Lemma deserialize_from_serialize image_bytes label block rest :
  serialize image_bytes label = Ok block ->
  deserialize_from (block ++ rest) = Ok (image_bytes, label, rest).
Proof.
  intros H. destruct (serialize_parts _ _ rest H) as (tail & Hi & Hl & _).
  unfold Kitti.deserialize_from. rewrite Hi. cbn. rewrite Hl. reflexivity.
Qed.

Lemma serialize_frameable image_bytes label :
  frameable image_bytes label = true -> exists block, serialize image_bytes label = Ok block.
Proof.
  unfold Kitti.frameable, Kitti.serialize, pack. intros H.
  apply andb_true_iff in H. destruct H as [H Hrows].
  apply andb_true_iff in H. destruct H as [-> ->]. cbn.
  destruct (mapR_ok serialize_row label) as [blocks ->]; [|cbn; now eexists].
  intros row Hrow. rewrite forallb_forall in Hrows. specialize (Hrows row Hrow).
  apply andb_true_iff in Hrows. destruct Hrows as [Hw Hf].
  unfold Kitti.serialize_row. rewrite Hw.
  destruct (mapR_ok (pack FIELD_WIDTH) row) as [fields ->]; [|cbn; now eexists].
  intros x Hx. rewrite forallb_forall in Hf. unfold pack. rewrite (Hf x Hx). now eexists.
Qed.

(** C1.  For compressed image bytes and a label table that can be framed
    (the two lengths fit a length prefix, every row has [BOX_WIDTH] fields
    and every field fits its width), [serialize] gives a block and
    [deserialize] gives back from it the same bytes and the same table. *)
Theorem deserialize_serialize (image_bytes : bytes) (label : LabelTable) :
  frameable image_bytes label = true ->
  exists block,
    serialize image_bytes label = Ok block /\
    deserialize block = Ok (image_bytes, label).
Proof.
  intros H. destruct (serialize_frameable _ _ H) as [block Hs].
  exists block. split; [exact Hs|].
  unfold Kitti.deserialize. rewrite <- (app_nil_r block).
  now rewrite (deserialize_from_serialize _ _ [] Hs).
Qed.

(** *** The reader *)

Variable image_to_jpeg_bytes : RawImage -> result bytes.
Variable jpeg_bytes_to_image : bytes -> option RawImage.

Local Abbreviation frame := (frame LEN_WIDTH FIELD_WIDTH BOX_WIDTH image_to_jpeg_bytes).
Local Abbreviation byteIter := (byteIter LEN_WIDTH FIELD_WIDTH BOX_WIDTH image_to_jpeg_bytes).
Local Abbreviation write := (write LEN_WIDTH FIELD_WIDTH BOX_WIDTH image_to_jpeg_bytes).
Local Abbreviation write_file :=
  (write_file LEN_WIDTH FIELD_WIDTH BOX_WIDTH image_to_jpeg_bytes).
Local Abbreviation read_image := (read_image LEN_WIDTH jpeg_bytes_to_image).
Local Abbreviation read_label := (read_label LEN_WIDTH FIELD_WIDTH BOX_WIDTH).
Local Abbreviation read_record :=
  (read_record LEN_WIDTH FIELD_WIDTH BOX_WIDTH jpeg_bytes_to_image).
Local Abbreviation read_n := (read_n LEN_WIDTH FIELD_WIDTH BOX_WIDTH jpeg_bytes_to_image).
Local Abbreviation step := (step LEN_WIDTH FIELD_WIDTH BOX_WIDTH jpeg_bytes_to_image).
Local Abbreviation run := (run LEN_WIDTH FIELD_WIDTH BOX_WIDTH jpeg_bytes_to_image).
Local Abbreviation codec_ok := (codec_ok image_to_jpeg_bytes jpeg_bytes_to_image).

Lemma take_error n bs e : take n bs = Err e -> e = FramingError.
Proof.
  unfold take. destruct (_ <=? _)%N; [discriminate|]. now intros [= <-].
Qed.

Lemma deserialize_image_error bs e : deserialize_image bs = Err e -> e = FramingError.
Proof.
  unfold Kitti.deserialize_image, read_int.
  destruct (take (N.of_nat LEN_WIDTH) bs) as [[p rest]|e'] eqn:E; cbn.
  - apply take_error.
  - intros [= <-]. now apply take_error in E.
Qed.

Lemma read_image_error rd e :
  read_image rd = Err e ->
  (e = EndOfStream /\ remaining rd = []) \/
  ((e = FramingError \/ e = DecodeError) /\ remaining rd <> []).
Proof.
  unfold Kitti.read_image. destruct (remaining rd) as [|b bs] eqn:E.
  - intros [= <-]. now left.
  - intros H. right. split; [|discriminate].
    destruct (deserialize_image (b :: bs)) as [[image_bytes rest]|e'] eqn:D; cbn in H.
    + destruct (jpeg_bytes_to_image image_bytes); [discriminate|].
      injection H as <-. now right.
    + injection H as <-. left. now apply deserialize_image_error in D.
Qed.

(** C5.  [read_image] fails with [EndOfStream] exactly when no byte remains;
    when bytes remain its only failures are [FramingError] and [DecodeError];
    and [EndOfStream] is another kind of error than [FramingError]. *)
Theorem read_image_end_of_stream (rd : reader) :
  (remaining rd = [] <-> read_image rd = Err EndOfStream) /\
  (forall e, read_image rd = Err e ->
     e = EndOfStream \/ (remaining rd <> [] /\ (e = FramingError \/ e = DecodeError))) /\
  EndOfStream <> FramingError.
Proof.
  split; [split|split].
  - intros H. unfold Kitti.read_image. now rewrite H.
  - intros H. apply read_image_error in H.
    destruct H as [[_ H]|[[H|H] _]]; [exact H|discriminate H|discriminate H].
  - intros e H. apply read_image_error in H.
    destruct H as [[H _]|[H H']]; [now left|right; now split].
  - discriminate.
Qed.

Lemma step_image_read c rd rd' :
  step c rd = Ok rd' ->
  image_read rd' = match c with ReadImage => true | ReadLabel => false end.
Proof.
  destruct c; unfold Kitti.step, Kitti.read_image, Kitti.read_label; intros H.
  - destruct (remaining rd); [discriminate|].
    destruct (deserialize_image _) as [[image_bytes rest]|]; [|discriminate]. cbn in H.
    destruct (jpeg_bytes_to_image image_bytes); [|discriminate].
    now injection H as <-.
  - destruct (image_read rd); [|discriminate].
    destruct (deserialize_label _) as [[label rest]|]; [|discriminate]. cbn in H.
    now injection H as <-.
Qed.

Lemma last_cons {X : Type} (x d : X) xs : last (x :: xs) d = last xs x.
Proof.
  revert x d. induction xs as [|y ys IH]; intros x d; [reflexivity|].
  change (last (x :: y :: ys) d) with (last (y :: ys) d). now rewrite !IH.
Qed.

Lemma run_image_read calls rd rd' :
  run calls rd = Ok rd' ->
  image_read rd' =
    match last calls (if image_read rd then ReadImage else ReadLabel) with
    | ReadImage => true
    | ReadLabel => false
    end.
Proof.
  revert rd. induction calls as [|c calls IH]; intros rd H.
  - injection H as <-. simpl. now destruct (image_read rd).
  - cbn [Kitti.run] in H. destruct (step c rd) as [rd1|] eqn:E; [|discriminate].
    cbn in H. rewrite (IH _ H), last_cons, (step_image_read _ _ E).
    now destruct c.
Qed.

(** C6.  After any calls that returned on a reader made from bytes, the last
    of them (if there is one) a [read_label], the image of the current
    record has not been read, and [read_label] fails with
    [SequenceError]. *)
Theorem read_label_before_read_image (bytedata : bytes) (calls : list call) (rd : reader) :
  run calls (from_bytes bytedata) = Ok rd ->
  last calls ReadLabel = ReadLabel ->
  read_label rd = Err SequenceError.
Proof.
  intros H Hlast. apply run_image_read in H. cbn [from_bytes image_read] in H.
  rewrite Hlast in H. unfold Kitti.read_label. now rewrite H.
Qed.

(** *** The writer *)

Lemma write_blocks_ok sink blocks sink' :
  write_blocks sink blocks = (sink', Ok tt) ->
  exists written, blocks = map Ok written /\ sink' = sink ++ concat written.
Proof.
  revert sink. induction blocks as [|[block|e] blocks IH]; intros sink H; simpl in H.
  - injection H as <-. exists []. now rewrite app_nil_r.
  - destruct (IH _ H) as (written & -> & ->). exists (block :: written).
    simpl. now rewrite app_assoc.
  - discriminate.
Qed.

Lemma write_blocks_error sink blocks sink' e :
  write_blocks sink blocks = (sink', Err e) ->
  exists written,
    firstn (length written) blocks = map Ok written /\
    nth_error blocks (length written) = Some (Err e) /\
    sink' = sink ++ concat written.
Proof.
  revert sink. induction blocks as [|[block|e'] blocks IH]; intros sink H; simpl in H.
  - discriminate.
  - destruct (IH _ H) as (written & Hf & Hn & ->). exists (block :: written).
    simpl. rewrite Hf, app_assoc. now repeat split.
  - injection H as <- <-. exists []. simpl. now rewrite app_nil_r.
Qed.

(** The blocks written for the first pairs are complete records. *)
Lemma deserialize_n_blocks images labels written rest :
  firstn (length written) (byteIter images labels) = map Ok written ->
  exists records,
    deserialize_n (length written) (concat written ++ rest) = Ok (records, rest) /\
    map snd records = firstn (length written) labels.
Proof.
  revert labels written.
  induction images as [|image images IH]; intros labels written H.
  - destruct written; [|now rewrite firstn_nil in H]. now exists [].
  - destruct written as [|block written]; [now exists []|].
    destruct labels as [|label labels]; [discriminate|].
    cbn [Kitti.byteIter length firstn map] in H. injection H as Hb H.
    destruct (IH _ _ H) as (records & Hr & Hl).
    unfold Kitti.frame in Hb. bind_ok Hb.
    exists ((a, label) :: records). split.
    + cbn [length Kitti.deserialize_n concat]. rewrite <- app_assoc.
      rewrite (deserialize_from_serialize _ _ _ Hb). cbn. now rewrite Hr.
    + simpl. now rewrite Hl.
Qed.

(** C7.  When [write] fails with an error [e], some pair [i] is the first
    whose block fails, with [e]; the sink holds what it held before followed
    by the blocks of the pairs before [i] and nothing else, and these blocks
    are [i] complete records carrying the first [i] labels. *)
Theorem write_failure_keeps_prefix (sink : bytes) (images : list RawImage)
    (labels : list LabelTable) (sink' : bytes) (e : error) :
  write sink images labels = (sink', Err e) ->
  exists (i : nat) (written : list bytes),
    length written = i /\
    firstn i (byteIter images labels) = map Ok written /\
    nth_error (byteIter images labels) i = Some (Err e) /\
    sink' = sink ++ concat written /\
    exists records,
      deserialize_n i (concat written) = Ok (records, []) /\
      map snd records = firstn i labels.
Proof.
  intros H. apply write_blocks_error in H. destruct H as (written & Hf & Hn & ->).
  exists (length written), written. repeat split; trivial.
  destruct (deserialize_n_blocks _ _ _ [] Hf) as (records & Hr & Hl).
  exists records. rewrite app_nil_r in Hr. now split.
Qed.

(** *** Writing, then reading *)

Lemma read_record_frame image label block rest flag :
  0 < LEN_WIDTH -> codec_ok image = true -> frame image label = Ok block ->
  exists image',
    read_record {| remaining := block ++ rest; image_read := flag |} =
      Ok (image', label, {| remaining := rest; image_read := false |}) /\
    reproduces image image' = true.
Proof.
  intros Hw Hc H. unfold Kitti.frame in H. bind_ok H.
  unfold Kitti.codec_ok in Hc. rewrite E in Hc.
  destruct (jpeg_bytes_to_image a) as [image'|] eqn:Hd; [|discriminate].
  exists image'. split; [|exact Hc].
  destruct (serialize_parts _ _ rest H) as (tail & Hi & Hl & Hlen).
  unfold Kitti.read_record, Kitti.read_image. cbn [remaining].
  destruct (block ++ rest) as [|b bs] eqn:Eb.
  - apply (f_equal (@length _)) in Eb. rewrite length_app in Eb. simpl in Eb. lia.
  - rewrite Hi. cbn. rewrite Hd. cbn.
    unfold Kitti.read_label. cbn [image_read remaining]. rewrite Hl. reflexivity.
Qed.

Lemma read_n_blocks images labels written rest :
  0 < LEN_WIDTH -> length images = length labels -> forallb codec_ok images = true ->
  byteIter images labels = map Ok written ->
  exists images',
    read_n (length images) {| remaining := concat written ++ rest; image_read := false |} =
      Ok (combine images' labels, {| remaining := rest; image_read := false |}) /\
    Forall2 (fun image image' => reproduces image image' = true) images images'.
Proof.
  intros Hw. revert labels written.
  induction images as [|image images IH]; intros labels written Hlen Hc H.
  - destruct written; [|discriminate]. exists []. now split.
  - destruct labels as [|label labels]; [discriminate|].
    destruct written as [|block written]; [discriminate|].
    cbn [Kitti.byteIter map] in H. injection H as Hb H.
    simpl in Hc. apply andb_true_iff in Hc. destruct Hc as [Hc1 Hc2].
    destruct (IH labels written) as (images' & Hr & Hi); trivial.
    { simpl in Hlen. lia. }
    destruct (@read_record_frame image label block (concat written ++ rest) false Hw Hc1 Hb)
      as (image' & Hrec & Himg).
    exists (image' :: images'). split; [|now constructor].
    cbn [length Kitti.read_n concat]. rewrite <- app_assoc, Hrec. cbn.
    now rewrite Hr.
Qed.

Lemma store_same fs path content : store fs path content path = Some content.
Proof. unfold store. now rewrite String.eqb_refl. Qed.

(** C2.  With a length prefix of at least one byte and a codec that keeps
    each of the images within the error budget: when [write] has written [n]
    images and [n] labels to a file, a reader opened on the file reads [n]
    records one after the other; the label of each is the label written and
    the image of each reproduces the image written, and no byte remains. *)
Theorem write_then_read (fs fs' : file_system) (path : String.string)
    (images : list RawImage) (labels : list LabelTable) :
  0 < LEN_WIDTH -> length images = length labels -> forallb codec_ok images = true ->
  write_file fs path images labels = (fs', Ok tt) ->
  exists rd images',
    open_path fs' path = Some rd /\
    read_n (length images) rd = Ok (combine images' labels, from_bytes []) /\
    Forall2 (fun image image' => reproduces image image' = true) images images'.
Proof.
  intros Hw Hlen Hc H. unfold Kitti.write_file, Kitti.write in H.
  destruct (write_blocks [] (byteIter images labels)) as [sink outcome] eqn:E.
  injection H as <- ->.
  apply write_blocks_ok in E. destruct E as (written & Hb & ->).
  destruct (@read_n_blocks images labels written [] Hw Hlen Hc Hb) as (images' & Hr & Hi).
  exists (from_bytes (concat written)), images'. split; [|split].
  - unfold open_path. now rewrite store_same.
  - unfold from_bytes. rewrite app_nil_r in Hr. exact Hr.
  - exact Hi.
Qed.

(** C4.  With a length prefix of at least one byte and a codec that keeps
    the image within the error budget: when [byteIter] yields the block of a
    pair, [write] stores exactly that block in the file, so the reader opened
    on the file is the reader made from the block, and reading a record from
    it gives the label and an image that reproduces the one of the pair. *)
Theorem byteIter_reader_as_file (fs : file_system) (path : String.string)
    (image : RawImage) (label : LabelTable) (block : bytes) :
  0 < LEN_WIDTH -> codec_ok image = true ->
  byteIter [image] [label] = [Ok block] ->
  exists fs' image',
    write_file fs path [image] [label] = (fs', Ok tt) /\
    open_path fs' path = Some (from_bytes block) /\
    read_record (from_bytes block) = Ok (image', label, from_bytes []) /\
    reproduces image image' = true.
Proof.
  intros Hw Hc H. cbn [Kitti.byteIter] in H. injection H as H.
  destruct (@read_record_frame image label block [] false Hw Hc H) as (image' & Hr & Hi).
  exists (store fs path block), image'. repeat split.
  - unfold Kitti.write_file, Kitti.write. cbn [Kitti.byteIter]. rewrite H. reflexivity.
  - unfold open_path. now rewrite store_same.
  - unfold from_bytes. rewrite app_nil_r in Hr. exact Hr.
  - exact Hi.
Qed.

End Container.

(** *** read_bboxes *)

Section Labels.
Variable BOX_WIDTH : nat.
Variable parse_line : String.string -> option BoundingBox.

Local Abbreviation parse_row := (parse_row BOX_WIDTH parse_line).
Local Abbreviation malformed := (malformed BOX_WIDTH parse_line).
Local Abbreviation parse_lines := (parse_lines BOX_WIDTH parse_line).
Local Abbreviation read_bboxes := (read_bboxes BOX_WIDTH parse_line).
Local Abbreviation rows_of := (rows_of BOX_WIDTH parse_line).

Lemma rows_of_well_formed lines table :
  rows_of lines table -> ~ Exists malformed lines.
Proof.
  unfold Kitti.rows_of. revert table.
  induction lines as [|line lines IH]; intros table H Hex.
  - inversion Hex.
  - destruct table as [|row table]; [discriminate|]. injection H as H1 H2.
    inversion Hex as [? ? Hm|? ? Hm]; subst.
    + unfold Kitti.malformed in Hm. congruence.
    + now apply (IH table).
Qed.

Lemma rows_of_width lines table :
  rows_of lines table ->
  length table = length lines /\ Forall (fun row => length row = BOX_WIDTH) table.
Proof.
  unfold Kitti.rows_of. revert table.
  induction lines as [|line lines IH]; intros [|row table] H; try discriminate.
  - now split.
  - injection H as H1 H2. destruct (IH _ H2) as [Hl Hw]. split; [simpl; now rewrite Hl|].
    constructor; [|exact Hw]. unfold Kitti.parse_row in H1.
    destruct (parse_line line) as [row'|]; [|discriminate].
    destruct (Nat.eqb_spec (length row') BOX_WIDTH); congruence.
Qed.

Lemma parse_lines_cases n lines :
  (exists table, parse_lines n lines = Ok table /\ rows_of lines table) \/
  (exists i line,
     parse_lines n lines = Err (ParseError (n + i) line) /\
     nth_error lines i = Some line /\ malformed line).
Proof.
  revert n. induction lines as [|line lines IH]; intros n.
  - left. now exists [].
  - cbn [Kitti.parse_lines]. destruct (parse_row line) as [row|] eqn:E.
    + destruct (IH (S n)) as [(table & -> & Hr)|(i & l & -> & Hn & Hm)].
      * left. exists (row :: table). split; [reflexivity|].
        unfold Kitti.rows_of in *. simpl. now rewrite E, Hr.
      * right. exists (S i), l. rewrite Nat.add_succ_r. now repeat split.
    + right. exists 0, line. rewrite Nat.add_0_r. now repeat split.
Qed.

Lemma read_bboxes_cases blocks :
  (exists tables,
     read_bboxes blocks = Ok tables /\
     Forall2 (fun block table => rows_of (splitlines block) table) blocks tables) \/
  (exists block line_no line,
     read_bboxes blocks = Err (ParseError line_no line) /\
     In block blocks /\
     nth_error (splitlines block) line_no = Some line /\ malformed line).
Proof.
  unfold Kitti.read_bboxes. induction blocks as [|block blocks IH].
  - left. exists []. now split.
  - cbn [mapR].
    destruct (parse_lines_cases 0 (splitlines block))
      as [(table & -> & Hr)|(i & l & -> & Hn & Hm)].
    + destruct IH as [(tables & -> & Hf)|(b & i & l & -> & Hin & Hn & Hm)].
      * left. exists (table :: tables). split; [reflexivity|now constructor].
      * right. exists b, i, l. repeat split; trivial. now right.
    + right. exists block, i, l. repeat split; trivial. now left.
Qed.

Lemma tables_well_formed blocks tables :
  Forall2 (fun block table => rows_of (splitlines block) table) blocks tables ->
  ~ Exists (fun block => Exists malformed (splitlines block)) blocks.
Proof.
  induction 1 as [|block table blocks tables Hr _ IH]; intros Hex.
  - inversion Hex.
  - inversion Hex as [? ? Hm|? ? Hm]; subst.
    + now apply (rows_of_well_formed Hr).
    + now apply IH.
Qed.

(** C8.  [read_bboxes] fails exactly when a line of one of the text blocks is
    malformed; the failure is a [ParseError] carrying the number and the text
    of a malformed line of one of the blocks; when it succeeds there is one
    table per block, holding the rows of its lines in order; and the empty
    text gives the table without rows. *)
Theorem read_bboxes_parse_error (blocks : list String.string) :
  ((exists e, read_bboxes blocks = Err e) <->
   Exists (fun block => Exists malformed (splitlines block)) blocks) /\
  (forall e, read_bboxes blocks = Err e ->
     exists block line_no line,
       e = ParseError line_no line /\ In block blocks /\
       nth_error (splitlines block) line_no = Some line /\ malformed line) /\
  (forall tables, read_bboxes blocks = Ok tables ->
     Forall2 (fun block table => rows_of (splitlines block) table) blocks tables) /\
  read_bboxes [String.EmptyString] = Ok [[]].
Proof.
  destruct (read_bboxes_cases blocks)
    as [(tables & Hr & Hf)|(block & i & line & Hr & Hin & Hn & Hm)].
  - split; [split|split; [|split]].
    + intros [e He]. congruence.
    + intros Hex. now apply tables_well_formed in Hf.
    + intros e He. congruence.
    + intros tables' H. rewrite Hr in H. now injection H as <-.
    + reflexivity.
  - split; [split|split; [|split]].
    + intros _. apply Exists_exists. exists block. split; [exact Hin|].
      apply Exists_exists. exists line. split; [|exact Hm].
      now apply nth_error_In with i.
    + intros _. eexists. exact Hr.
    + intros e He. rewrite Hr in He. injection He as <-.
      exists block, i, line. now repeat split.
    + intros tables H. congruence.
    + reflexivity.
Qed.

End Labels.

End KittiFacts.

(** ** Facts on tests/test_kitti.py *)

Module TestKittiFacts.
Import Kitti.
Local Open Scope N_scope.

Lemma uint8_sub_ge x y : y <= x -> x < 256 -> uint8_sub x y = x - y.
Proof.
  intros Hle Hx. unfold uint8_sub. rewrite (N.mod_small y) by lia.
  symmetry. apply N.mod_unique with 1; lia.
Qed.

Lemma uint8_sub_lt x y : x < y -> y < 256 -> uint8_sub x y = 256 - (y - x).
Proof.
  intros Hlt Hy. unfold uint8_sub. rewrite (N.mod_small y) by lia.
  rewrite N.mod_small; lia.
Qed.

Lemma np_sum_difference xs ys :
  Forall2 (fun x y => y <= x /\ x < 256) xs ys ->
  np_sum (difference xs ys) = np_sum xs - np_sum ys /\ np_sum ys <= np_sum xs.
Proof.
  induction 1 as [|x y xs ys [Hle Hx] _ [IH1 IH2]]; simpl.
  - split; reflexivity.
  - rewrite uint8_sub_ge, IH1 by assumption. fold (np_sum xs) (np_sum ys). lia.
Qed.

Lemma np_sum_wrapped xs ys :
  Forall2 (fun x y => x < y /\ y <= x + 109 /\ y < 256) xs ys ->
  147 * N.of_nat (length xs) <= np_sum (difference xs ys) /\
  np_sum (difference ys xs) <= 109 * N.of_nat (length xs).
Proof.
  induction 1 as [|x y xs ys (Hlt & Hle & Hy) _ [IH1 IH2]].
  - simpl. lia.
  - cbn [difference np_sum fold_right length].
    fold (np_sum (difference xs ys)) (np_sum (difference ys xs)).
    rewrite uint8_sub_lt, uint8_sub_ge by lia. lia.
Qed.

(** [assert_images_equal] with the brighter image first: for two images of
    one shape, each holding as many samples as its shape says, when no sample
    of [image1] is below the sample of [image2] at its place, nothing wraps
    around and the check is that the sum of the samples of [image1] exceeds
    that of [image2] by less than 110 times the number of samples. *)
Theorem assert_images_equal_brighter_first (image1 image2 : RawImage) :
  dims image2 = dims image1 ->
  N.of_nat (length (samples image1)) = np_prod (dims image1) ->
  N.of_nat (length (samples image2)) = np_prod (dims image2) ->
  Forall2 (fun x y => y <= x /\ x < 256) (samples image1) (samples image2) ->
  assert_images_equal image1 image2
  = (np_sum (samples image1) - np_sum (samples image2) <? 110 * np_prod (dims image1)).
Proof.
  intros _ _ _ H. unfold assert_images_equal.
  now destruct (np_sum_difference H) as [-> _].
Qed.

(** [assert_images_equal] is no distance: when every sample of [image2] is
    above the sample of [image1] at its place, by 109 at most, the
    differences wrap around and the check fails for [image1] against
    [image2], however small the differences are, while it passes for
    [image2] against [image1]. *)
Theorem assert_images_equal_wraps_around (image1 image2 : RawImage) :
  Forall2 (fun x y => x < y /\ y <= x + 109 /\ y < 256)
          (samples image1) (samples image2) ->
  N.of_nat (length (samples image1)) = np_prod (dims image1) ->
  dims image2 = dims image1 ->
  samples image1 <> [] ->
  assert_images_equal image1 image2 = false /\
  assert_images_equal image2 image1 = true.
Proof.
  intros H Hsize Hdims Hne. unfold assert_images_equal.
  destruct (np_sum_wrapped H) as [H1 H2]. rewrite Hdims, <- Hsize.
  assert (0 < N.of_nat (length (samples image1))).
  { destruct (samples image1); [congruence|]. simpl length. lia. }
  split; [apply N.ltb_ge|apply N.ltb_lt]; lia.
Qed.

Lemma assert_images_equal_brighter_first_witness :
  assert_images_equal {| dims := [1%nat; 2%nat; 3%nat]; samples := [200; 10; 10; 10; 10; 255] |}
                      {| dims := [1%nat; 2%nat; 3%nat]; samples := [0; 10; 9; 10; 10; 0] |}
  = (np_sum [200; 10; 10; 10; 10; 255] - np_sum [0; 10; 9; 10; 10; 0]
     <? 110 * np_prod [1%nat; 2%nat; 3%nat]).
Proof.
  apply (@assert_images_equal_brighter_first
           {| dims := [1%nat; 2%nat; 3%nat]; samples := [200; 10; 10; 10; 10; 255] |}
           {| dims := [1%nat; 2%nat; 3%nat]; samples := [0; 10; 9; 10; 10; 0] |}).
  - reflexivity.
  - reflexivity.
  - reflexivity.
  - simpl. repeat constructor; lia.
Defined.

Lemma assert_images_equal_wraps_around_witness :
  assert_images_equal {| dims := [1%nat; 1%nat; 3%nat]; samples := [10; 20; 30] |}
                      {| dims := [1%nat; 1%nat; 3%nat]; samples := [11; 21; 31] |} = false /\
  assert_images_equal {| dims := [1%nat; 1%nat; 3%nat]; samples := [11; 21; 31] |}
                      {| dims := [1%nat; 1%nat; 3%nat]; samples := [10; 20; 30] |} = true.
Proof.
  apply (@assert_images_equal_wraps_around
           {| dims := [1%nat; 1%nat; 3%nat]; samples := [10; 20; 30] |}
           {| dims := [1%nat; 1%nat; 3%nat]; samples := [11; 21; 31] |}).
  - simpl. repeat constructor; lia.
  - reflexivity.
  - reflexivity.
  - discriminate.
Defined.

End TestKittiFacts.
